(** * gala.serve: the proofreading session ([Solver]) and its simulator

    A shallow embedding of [src/gala/serve.py].  The region-adjacency graph
    ([agglo.Rag]), the feature manager and the classifier are collaborators
    whose code is outside the embedded file; they appear as the operations
    of the interface [Collab], exactly the ones [serve.py] calls.  The
    ZMQ channel is the list of messages still to be received together with
    the list of messages already sent. *)

From Stdlib Require Import QArith Ascii String.
From Stdlib Require Import ZArith List Bool Lia Relations Permutation.
Import ListNotations.
Open Scope Z_scope.

(** ** Python values used by the module *)

(** Exceptions that can leave a handler. *)
Inductive exn : Type :=
| KeyError
| StopIteration
| ValueError.

Inductive result (A : Type) : Type :=
| Ok (a : A)
| Raise (e : exn).
Arguments Ok {A} a.
Arguments Raise {A} e.

(** [x in l] on integers. *)
Definition mem (x : Z) (l : list Z) : bool :=
  if in_dec Z.eq_dec x l then true else false.

(** [set(...)] of integers: the distinct values.  Python leaves the
    iteration order of a set unspecified; the model lists each value once. *)
Definition py_set (l : list Z) : list Z := nodup Z.eq_dec l.

(** [range(n)]: empty when [n <= 0]. *)
Definition py_range (n : Z) : list Z := map Z.of_nat (seq 0 (Z.to_nat n)).

(** [enumerate(l)]. *)
Definition enumerate {A : Type} (l : list A) : list (nat * A) :=
  combine (seq 0 (length l)) l.

(** constants: labels for machine learning libs *)
Definition MERGE_LABEL : Z := 0.
Definition SEPAR_LABEL : Z := 1.

(** ** [networkx.dfs_preorder_nodes(G)] with no source

    networkx starts a depth-first search from every node of [G] that is
    not yet visited, in node order, and walks the neighbours of a node in
    adjacency order; a node is yielded when it is first reached.  The
    stack of neighbour iterators is kept flattened: the neighbours still to
    be looked at, innermost first, followed by the start nodes still to be
    tried. *)
Section Dfs.
Variable adj : Z -> list Z.

Fixpoint dfs_loop (fuel : nat) (stack visited : list Z) : list Z :=
  match fuel with
  | O => visited
  | S fuel' =>
      match stack with
      | [] => visited
      | v :: rest =>
          if mem v visited then dfs_loop fuel' rest visited
          else dfs_loop fuel' (adj v ++ rest) (visited ++ [v])
      end
  end.

(** every node is entered once and each of its neighbours is looked at
    once, so this many steps always suffice ([dfs_fuel_enough] below). *)
Definition dfs_fuel (nodes : list Z) : nat :=
  length nodes + list_sum (map (fun v => S (length (adj v))) nodes).

Definition dfs_preorder_nodes (nodes : list Z) : list Z :=
  dfs_loop (dfs_fuel nodes) nodes [].

(** the work still to do during the search of [nodes]: the nodes not yet
    entered, each with its neighbours *)
Definition weight (nodes visited : list Z) : nat :=
  list_sum (map (fun v => S (length (adj v)))
              (filter (fun v => negb (mem v visited)) nodes)).

(** [b in G[a]] *)
Definition edge_of (a b : Z) : Prop := In b (adj a).
End Dfs.

(** ** Messages of the proofreading protocol *)

(** The [data] payload: the fields the protocol uses; an absent field is a
    missing dictionary key. *)
Record payload : Type := mkPayload {
  p_segments : option (list Z);
  p_what : option string;
  p_fragments : option (list Z)
}.

Record message : Type := mkMessage {
  msg_type : string;
  msg_data : payload
}.

Definition no_data : payload := mkPayload None None None.

(** What [print] writes to the console. *)
Inductive diagnostic : Type :=
| NotRecognized (command : string)
| FailedToSplit (s0 s1 f0 f1 : Z).

(** ** The collaborators of [serve.py] *)

Class Collab (Rag Features Classifier Policy : Type) : Type := {
  (** [agglo.Rag(labels, image, feature_manager=..., normalize_probabilities=True)] *)
  build_rag : list Z -> Rag;
  (** [rag.copy()] *)
  rag_copy : Rag -> Rag;
  (** the nodes of the graph, in iteration order *)
  rag_nodes : Rag -> list Z;
  (** [rag[v]]: the neighbours of a node *)
  rag_neighbors : Rag -> Z -> list Z;
  boundary_body : Rag -> Z;
  (** [rag.tree.highest_ancestor(s)] *)
  highest_ancestor : Rag -> Z -> Z;
  (** [rag.merge_nodes(n1, n2)]: the graph after the merge and the id of
      the merged node *)
  merge_nodes : Rag -> Z -> Z -> Rag * Z;
  (** [rag.separate_fragments(f0, f1)] *)
  separate_fragments : Rag -> Z -> Z -> Rag * (Z * Z);
  (** [rag.merge_priority_function = policy] *)
  set_merge_priority_function : Rag -> Policy -> Rag;
  rebuild_merge_queue : Rag -> Rag;
  (** [rag.node[n]['exclusions'].add(i)] *)
  add_exclusion : Rag -> Z -> nat -> Rag;
  replay_merge_history : Rag -> list (Z * Z) -> Rag;
  agglomerate : Rag -> Q -> Rag;
  (** [rag.tree.get_map(threshold)] *)
  get_map : Rag -> Q -> list Z;
  (** [feature_manager(rag, n1, n2)]; [None] is a [KeyError] *)
  feature_manager : Rag -> Z -> Z -> option Features;
  (** [classify.DefaultRandomForest().fit(features, targets)] *)
  fit : list Features -> list Z -> Classifier;
  (** [agglo.classifier_probability(feature_manager, clf)] *)
  classifier_probability :
    (Rag -> Z -> Z -> option Features) -> Classifier -> Policy
}.

(** [v in rag[u]] *)
Definition has_edge `{Collab} (g : Rag) (u v : Z) : Prop :=
  In v (rag_neighbors g u).

(** ** The session *)

Section Session.
Context {Rag Features Classifier Policy : Type}.
Context `{C : Collab Rag Features Classifier Policy}.

(** The attributes of a [Solver]; [sent] and [console] are what it has
    written to its socket and to the console so far.  [policy] does not
    exist before the first [relearn]. *)
Record Solver : Type := mkSolver {
  labels : list Z;
  rag : Rag;
  original_rag : Rag;
  history : list (Z * Z);
  separate : list (Z * Z);
  features : list Features;
  targets : list Z;
  policy : option Policy;
  relearn_threshold : Z;
  relearn_trigger : Z;
  sent : list message;
  console : list diagnostic
}.

Definition set_rag (s : Solver) (g : Rag) : Solver :=
  mkSolver (labels s) g (original_rag s) (history s) (separate s)
    (features s) (targets s) (policy s)
    (relearn_threshold s) (relearn_trigger s) (sent s) (console s).

Definition set_policy (s : Solver) (p : Policy) : Solver :=
  mkSolver (labels s) (rag s) (original_rag s) (history s) (separate s)
    (features s) (targets s) (Some p)
    (relearn_threshold s) (relearn_trigger s) (sent s) (console s).

Definition append_history (s : Solver) (e : Z * Z) : Solver :=
  mkSolver (labels s) (rag s) (original_rag s) (history s ++ [e]) (separate s)
    (features s) (targets s) (policy s)
    (relearn_threshold s) (relearn_trigger s) (sent s) (console s).

Definition append_separate (s : Solver) (e : Z * Z) : Solver :=
  mkSolver (labels s) (rag s) (original_rag s) (history s) (separate s ++ [e])
    (features s) (targets s) (policy s)
    (relearn_threshold s) (relearn_trigger s) (sent s) (console s).

Definition append_features (s : Solver) (f : Features) : Solver :=
  mkSolver (labels s) (rag s) (original_rag s) (history s) (separate s)
    (features s ++ [f]) (targets s) (policy s)
    (relearn_threshold s) (relearn_trigger s) (sent s) (console s).

Definition append_targets (s : Solver) (t : Z) : Solver :=
  mkSolver (labels s) (rag s) (original_rag s) (history s) (separate s)
    (features s) (targets s ++ [t]) (policy s)
    (relearn_threshold s) (relearn_trigger s) (sent s) (console s).

(** [self.comm.send_json(message)] *)
Definition send_json (s : Solver) (m : message) : Solver :=
  mkSolver (labels s) (rag s) (original_rag s) (history s) (separate s)
    (features s) (targets s) (policy s)
    (relearn_threshold s) (relearn_trigger s) (sent s ++ [m]) (console s).

Definition print (s : Solver) (d : diagnostic) : Solver :=
  mkSolver (labels s) (rag s) (original_rag s) (history s) (separate s)
    (features s) (targets s) (policy s)
    (relearn_threshold s) (relearn_trigger s) (sent s) (console s ++ [d]).

(** [Solver.__init__] with [_build_rag]. *)
Definition init (lbls : list Z) (threshold : Z) : Solver :=
  let g := build_rag lbls in
  mkSolver lbls g (rag_copy g) [] [] [] [] None threshold threshold [] [].

(** *** [learn_merge] *)

(** [nx.subgraph(rag, segments)]: the members of [segments] that are
    nodes of the graph, with the edges of the graph between them. *)
Definition sub_nodes (g : Rag) (segments : list Z) : list Z :=
  filter (fun v => mem v (rag_nodes g)) segments.

Definition sub_adj (g : Rag) (members : list Z) (v : Z) : list Z :=
  filter (fun w => mem w members) (rag_neighbors g v).

(** the body of [for s1 in ordered] *)
Fixpoint merge_loop (ordered : list Z) (s0 : Z) (s : Solver)
  : Solver * result unit :=
  match ordered with
  | [] => (s, Ok tt)
  | s1 :: rest =>
      match feature_manager (rag s) s0 s1 with
      | None => (s, Raise KeyError)
      | Some fv =>
          let s := append_features s fv in
          let s := append_history s (s0, s1) in
          let (g, s0') := merge_nodes (rag s) s0 s1 in
          let s := set_rag s g in
          let s := append_targets s MERGE_LABEL in
          merge_loop rest s0' s
      end
  end.

Definition resolve (g : Rag) (segments : list Z) : list Z :=
  py_set (map (highest_ancestor g) segments).

(** [ordered]: the depth-first order of the subgraph.  The subgraph is the
    graph networkx 1.x builds from the nodes and edges present when the
    command arrives, so the order does not see the merges of the loop. *)
Definition merge_order (g : Rag) (segments : list Z) : list Z :=
  let members := sub_nodes g (resolve g segments) in
  dfs_preorder_nodes (sub_adj g members) members.

Definition learn_merge (segments : list Z) (s : Solver)
  : Solver * result unit :=
  match merge_order (rag s) segments with
  | [] => (s, Raise StopIteration)  (* next(ordered) *)
  | s0 :: ordered => merge_loop ordered s0 s
  end.

(** *** [learn_separation] *)

Definition learn_separation (fragments : list Z) (s : Solver)
  : Solver * result unit :=
  match fragments with
  | [f0; f1] =>
      if mem (boundary_body (rag s)) [f0; f1] then (s, Ok tt)
      else
        let '(g, (s0, s1)) := separate_fragments (rag s) f0 f1 in
        let s := set_rag s g in
        match feature_manager (rag s) s0 s1 with
        | None => (print s (FailedToSplit s0 s1 f0 f1), Ok tt)
        | Some fv =>
            let s := append_features s fv in
            let s := append_targets s SEPAR_LABEL in
            (append_separate s (f0, f1), Ok tt)
        end
  | _ => (s, Raise ValueError)  (* f0, f1 = fragments *)
  end.

(** *** [relearn] and [send_segmentation] *)

Definition tag_exclusion (s : Solver) (e : nat * (Z * Z)) : Solver :=
  let '(i, (s0, s1)) := e in
  let s := set_rag s (add_exclusion (rag s) s0 i) in
  set_rag s (add_exclusion (rag s) s1 i).

Definition relearn (s : Solver) : Solver :=
  let clf := fit (features s) (targets s) in
  let p := classifier_probability feature_manager clf in
  let s := set_policy s p in
  let s := set_rag s (rag_copy (original_rag s)) in
  let s := set_rag s (set_merge_priority_function (rag s) p) in
  let s := set_rag s (rebuild_merge_queue (rag s)) in
  let s := fold_left tag_exclusion (enumerate (separate s)) s in
  set_rag s (replay_merge_history (rag s) (history s)).

Definition half : Q := 1 # 2.

Definition lut_message (src dst : list Z) : message :=
  mkMessage "fragment-segment-lut"
    (mkPayload (Some dst) None (Some src)).

Definition send_segmentation (s : Solver) : Solver :=
  let s := relearn s in
  let s := set_rag s (agglomerate (rag s) half) in
  let dst := get_map (rag s) half in
  let src := py_range (Z.of_nat (length dst)) in
  send_json s (lut_message src dst).

(** *** [listen] *)

(** How a run of the loop over the messages received so far ends:
    blocked in [recv_json] with nothing left to read, returned, or left
    by an exception. *)
Inductive status : Type :=
| Listening
| Stopped
| Crashed (e : exn).

(** what the loop does with the outcome of a handler: an exception leaves
    [listen], otherwise the next message is received *)
Definition after_handler (continue : Solver -> Solver * status * list message)
    (rest : list message) (r : Solver * result unit)
  : Solver * status * list message :=
  match r with
  | (s, Ok _) => continue s
  | (s, Raise e) => (s, Crashed e, rest)
  end.

(** The loop on messages that carry both keys, [type] and [data]: the two
    reads [message['type']] and [message['data']] succeed.  The loop on
    any JSON object, where either read can raise [KeyError], is
    [listen_raw] below; the two agree on such messages
    ([listen_raw_envelope]). *)
Fixpoint listen (inbox : list message) (s : Solver)
  : Solver * status * list message :=
  match inbox with
  | [] => (s, Listening, [])
  | message :: rest =>
      let command := msg_type message in
      let data := msg_data message in
      if String.eqb command "merge" then
        match p_segments data with
        | None => (s, Crashed KeyError, rest)
        | Some segments =>
            after_handler (listen rest) rest (learn_merge segments s)
        end
      else if String.eqb command "separate" then
        match p_segments data with
        | None => (s, Crashed KeyError, rest)
        | Some segments =>
            after_handler (listen rest) rest (learn_separation segments s)
        end
      else if String.eqb command "request" then
        match p_what data with
        | None => (s, Crashed KeyError, rest)
        | Some what =>
            if String.eqb what "fragment-segment-lut"
            then listen rest (send_segmentation s)
            else listen rest s
        end
      else if String.eqb command "stop" then (s, Stopped, rest)
      else (print s (NotRecognized command), Stopped, rest)
  end.

End Session.

Arguments Solver Rag Features Policy : clear implicits.

(** ** The simulator: [proofread] *)

Definition merge_message (components : list Z) : message :=
  mkMessage "merge" (mkPayload (Some components) None None).

Definition separate_message (edge : list Z) : message :=
  mkMessage "separate" (mkPayload (Some edge) None None).

Definition request_message : message :=
  mkMessage "request" (mkPayload None (Some "fragment-segment-lut"%string) None).

Definition stop_message : message := mkMessage "stop" no_data.

Section Simulator.
(** [ctable.getcol(int(label)).indices]: the fragments overlapping a
    ground-truth label. *)
Variable ctable_col : Z -> list Z.
(** [base_graph[fragment]]; [None] is the [KeyError] of a missing node. *)
Variable base_graph : Z -> option (list Z).

(** [for fragment in components: for neighbor in base_graph[fragment]: ...] *)
Fixpoint send_separations (components fragments : list Z) (wire : list message)
  : list message * result unit :=
  match fragments with
  | [] => (wire, Ok tt)
  | fragment :: rest =>
      match base_graph fragment with
      | None => (wire, Raise KeyError)
      | Some neighbors =>
          let edges :=
            map (fun neighbor => separate_message [fragment; neighbor])
              (filter (fun neighbor => negb (mem neighbor components)) neighbors) in
          send_separations components rest (wire ++ edges)
      end
  end.

(** [for _, label in zip(range(num_operations), true_labels)] *)
Fixpoint operations (todo : list (Z * Z)) (wire : list message)
  : list message * result unit :=
  match todo with
  | [] => (wire, Ok tt)
  | (_, label) :: rest =>
      let components := ctable_col label in
      let wire := wire ++ [merge_message components] in
      match send_separations components components wire with
      | (wire, Ok _) => operations rest wire
      | (wire, Raise e) => (wire, Raise e)
      end
  end.

(** [true_labels] is [np.unique(true)] after the shuffle; [response] is
    what [comm.recv_json()] returns.  The result is the list of messages
    sent and the returned pair [(src, dst)]. *)
Definition proofread (true_labels : list Z) (num_operations : Z)
    (stop_when_finished : bool) (response : message)
  : list message * result (list Z * list Z) :=
  match operations (combine (py_range num_operations) true_labels) [] with
  | (wire, Raise e) => (wire, Raise e)
  | (wire, Ok _) =>
      let wire := wire ++ [request_message] in
      match p_fragments (msg_data response), p_segments (msg_data response) with
      | Some src, Some dst =>
          let wire := if stop_when_finished then wire ++ [stop_message] else wire in
          (wire, Ok (src, dst))
      | _, _ => (wire, Raise KeyError)
      end
  end.

Definition is_merge (m : message) : bool := String.eqb (msg_type m) "merge".

End Simulator.

(** ** The protocol state machine as the specification words it

    LISTENING loops on [merge], [separate] and [request]; [stop] and every
    other command type lead to STOPPED, after which nothing is read. *)
Module Protocol.

Inductive state : Type := LISTENING | STOPPED.

Definition self_loop (command : string) : bool :=
  String.eqb command "merge" || String.eqb command "separate"
  || String.eqb command "request".

Definition step (q : state) (m : message) : state :=
  match q with
  | STOPPED => STOPPED
  | LISTENING => if self_loop (msg_type m) then LISTENING else STOPPED
  end.

(** final state and the messages never processed *)
Fixpoint run (q : state) (inbox : list message) : state * list message :=
  match q, inbox with
  | STOPPED, _ => (STOPPED, inbox)
  | LISTENING, [] => (LISTENING, [])
  | LISTENING, m :: rest => run (step LISTENING m) rest
  end.

End Protocol.

(** ** A small graph to run the session on *)
Module Toy.

(** Modelled from the spec: the region-adjacency graph [agglo.Rag] with its
    merge tree, whose code is not part of the embedded sources.  This is
    the graph of a one-dimensional label image: the fragments are the
    distinct labels and two fragments are adjacent when they touch.  The
    node set is the live ids, a live id being the highest ancestor of a
    fragment in the merge tree; two live ids are adjacent when some pair of
    fragments they contain is; merging makes a new id; every node carries
    exclusion tags. *)
Record rag : Type := mkRag {
  base_nodes : list Z;
  base_edges : list (Z * Z);
  (** the merge tree: children and the node they were merged into *)
  merges : list (Z * Z * Z);
  boundary : Z;
  exclusions : list (Z * nat);
  classifier_policy : bool
}.

Definition ancestor_step (x : Z) (m : Z * Z * Z) : Z :=
  let '(a, b, n) := m in
  if (x =? a) || (x =? b) then n else x.

Definition root (g : rag) (x : Z) : Z := fold_left ancestor_step (merges g) x.

Definition nodes (g : rag) : list Z := nodup Z.eq_dec (map (root g) (base_nodes g)).

Definition edge_at (g : rag) (v : Z) (e : Z * Z) : list Z :=
  let r1 := root g (fst e) in
  let r2 := root g (snd e) in
  if r1 =? r2 then []
  else if r1 =? v then [r2]
  else if r2 =? v then [r1]
  else [].

Definition neighbors (g : rag) (v : Z) : list Z :=
  nodup Z.eq_dec (flat_map (edge_at g v) (base_edges g)).

Definition ids (g : rag) : list Z :=
  boundary g :: base_nodes g ++ flat_map (fun m => let '(a, b, n) := m in [a; b; n]) (merges g).

Definition top (l : list Z) : Z := fold_right Z.max 0 l.

Definition with_merges (g : rag) (ms : list (Z * Z * Z)) : rag :=
  mkRag (base_nodes g) (base_edges g) ms (boundary g) (exclusions g)
    (classifier_policy g).

Definition merge (g : rag) (a b : Z) : rag * Z :=
  let n := 1 + top (a :: b :: ids g) in
  (with_merges g (merges g ++ [(a, b, n)]), n).

(** the merge that first put [x] and [y] under one node *)
Fixpoint lowest_common_ancestor (ms : list (Z * Z * Z)) (x y : Z)
  : option (Z * Z * Z) :=
  match ms with
  | [] => None
  | m :: rest =>
      let x' := ancestor_step x m in
      let y' := ancestor_step y m in
      if (x' =? y') && negb (x =? y) then Some m
      else lowest_common_ancestor rest x' y'
  end.

(** Modelled from the spec: [separate_fragments] un-merges just enough
    history to put the two fragments under different live nodes, and
    returns the two resulting segments; fragments already apart are left
    as they are.  [delete_merge] removes a merge and every merge built on
    its result. *)
Fixpoint delete_merge (dead : list Z) (ms : list (Z * Z * Z))
  : list (Z * Z * Z) :=
  match ms with
  | [] => []
  | (a, b, n) :: rest =>
      if mem a dead || mem b dead || mem n dead
      then delete_merge (n :: dead) rest
      else (a, b, n) :: delete_merge dead rest
  end.

Definition separate (g : rag) (f0 f1 : Z) : rag * (Z * Z) :=
  match lowest_common_ancestor (merges g) f0 f1 with
  | Some (a, b, n) => (with_merges g (delete_merge [n] (merges g)), (a, b))
  | None => (g, (root g f0, root g f1))
  end.

Definition tag (g : rag) (n : Z) (i : nat) : rag :=
  mkRag (base_nodes g) (base_edges g) (merges g) (boundary g)
    (exclusions g ++ [(n, i)]) (classifier_policy g).

Definition install (g : rag) : rag :=
  mkRag (base_nodes g) (base_edges g) (merges g) (boundary g)
    (exclusions g) true.

Definition replay (g : rag) (h : list (Z * Z)) : rag :=
  fold_left (fun g e => fst (merge g (fst e) (snd e))) h g.

(** Modelled from the spec: the map of [rag.tree.get_map]: the lookup
    table as an array, one resolved segment id per index from 0 to the
    largest fragment id. *)
Definition lut (g : rag) : list Z :=
  map (root g) (py_range (1 + top (base_nodes g))).

Fixpoint touching (l : list Z) : list (Z * Z) :=
  match l with
  | x :: ((y :: _) as rest) =>
      if x =? y then touching rest else (x, y) :: touching rest
  | _ => []
  end.

Definition build (lbls : list Z) : rag :=
  mkRag (nodup Z.eq_dec lbls) (touching lbls) [] (1 + top lbls) [] false.

(** Features of a pair are the pair itself.  The strict feature manager
    needs the edge between the two nodes, as the cached edge features of
    gala do; the other one answers for every pair. *)
Definition extract (strict : bool) (g : rag) (a b : Z) : option (Z * Z) :=
  if strict && negb (mem b (neighbors g a)) then None else Some (a, b).

Definition classifier : Type := list (Z * Z) * list Z.

#[local] Instance collab (strict : bool)
  : Collab rag (Z * Z) classifier classifier := {
  build_rag := build;
  rag_copy := fun g => g;
  rag_nodes := nodes;
  rag_neighbors := neighbors;
  boundary_body := boundary;
  highest_ancestor := root;
  merge_nodes := merge;
  separate_fragments := separate;
  set_merge_priority_function := fun g _ => install g;
  rebuild_merge_queue := fun g => g;
  add_exclusion := tag;
  replay_merge_history := replay;
  agglomerate := fun g _ => g;
  get_map := fun g _ => lut g;
  feature_manager := extract strict;
  fit := fun fs ts => (fs, ts);
  classifier_probability := fun _ clf => clf
}.

(** four fragments in a row: 1 - 2 - 3 - 4 *)
Definition row : list Z := [1; 1; 2; 2; 3; 3; 4; 4].

Definition session (strict : bool) : Solver rag (Z * Z) classifier :=
  init (C := collab strict) row 20.

(** six fragments in a row: 1 - 2 - 3 - 4 - 5 - 6 *)
Definition long_row : list Z := [1; 2; 3; 4; 5; 6].

Definition long_session (strict : bool) : Solver rag (Z * Z) classifier :=
  init (C := collab strict) long_row 20.

End Toy.

(** ** Connected selections and the contract of the graph

    A selection is connected when every member can be reached from every
    other along edges between members. *)
Definition connected (adj : Z -> list Z) (members : list Z) : Prop :=
  forall u v, In u members -> In v members ->
    clos_refl_trans Z (edge_of adj) u v.

(** [rest] can be merged one after the other into [seen]: each node has
    an edge from a node that comes before it. *)
Fixpoint linked (E : Z -> Z -> Prop) (seen rest : list Z) : Prop :=
  match rest with
  | [] => True
  | y :: r => (exists x, In x seen /\ E x y) /\ linked E (seen ++ [y]) r
  end.

(** What [learn_merge] relies on: [merge_nodes] gives the merged node the
    edges of both nodes and leaves the rest of the graph alone, and the
    feature manager answers for every pair of adjacent nodes. *)
Class Contract {Rag Features Classifier Policy : Type}
    (C : Collab Rag Features Classifier Policy) : Prop := {
  merge_nodes_id : forall g a b g' n,
    merge_nodes g a b = (g', n) ->
    n = a \/ n = b \/ ~ In n (rag_nodes g);
  merge_nodes_keeps : forall g a b g' n x,
    merge_nodes g a b = (g', n) ->
    In x (rag_nodes g) -> x <> a -> x <> b -> In x (rag_nodes g');
  merge_nodes_joins : forall g a b g' n x,
    merge_nodes g a b = (g', n) ->
    In x (rag_nodes g) -> x <> a -> x <> b ->
    has_edge g a x \/ has_edge g b x -> has_edge g' n x;
  merge_nodes_frame : forall g a b g' n x y,
    merge_nodes g a b = (g', n) ->
    In x (rag_nodes g) -> x <> a -> x <> b ->
    In y (rag_nodes g) -> y <> a -> y <> b ->
    has_edge g x y -> has_edge g' x y;
  features_of_edge : forall g a b,
    has_edge g a b -> feature_manager g a b <> None
}.

(** ** Vocabulary of the statements *)

Section Vocabulary.
Context {Rag Features Classifier Policy : Type}.
Context `{C : Collab Rag Features Classifier Policy}.

(** the live segments a merge command selects *)
Definition selection (g : Rag) (segments : list Z) : list Z :=
  sub_nodes g (resolve g segments).

(** [s'] is [s] with [j] pairs appended to the merge history, [j] feature
    vectors to the features and [j] MERGE labels to the targets; the
    separation history and what was written so far are the same. *)
Definition merge_appended (j : nat) (s s' : Solver Rag Features Policy) : Prop :=
  exists hs fs,
    length hs = j /\ length fs = j /\
    history s' = history s ++ hs /\
    features s' = features s ++ fs /\
    targets s' = targets s ++ repeat MERGE_LABEL j /\
    separate s' = separate s /\
    sent s' = sent s /\ console s' = console s.

(** the invariant of the correction log *)
Definition log_invariant (s : Solver Rag Features Policy) : Prop :=
  length (features s) = length (targets s) /\
  count_occ Z.eq_dec (targets s) MERGE_LABEL = length (history s) /\
  count_occ Z.eq_dec (targets s) SEPAR_LABEL = length (separate s).

(** the original fragment ids: the distinct labels of the label image *)
Definition fragment_ids (s : Solver Rag Features Policy) : list Z :=
  py_set (labels s).

(** *** [relearn] as the specification words it, step by step *)

Definition train (s : Solver Rag Features Policy) : Classifier :=
  fit (features s) (targets s).

Definition install_policy (clf : Classifier) (s : Solver Rag Features Policy)
  : Solver Rag Features Policy :=
  set_policy s (classifier_probability feature_manager clf).

Definition reset_graph (s : Solver Rag Features Policy)
  : Solver Rag Features Policy :=
  match policy s with
  | Some p =>
      set_rag s (rebuild_merge_queue
                   (set_merge_priority_function (rag_copy (original_rag s)) p))
  | None => s
  end.

(** separation [i] tags both of its nodes with [i] *)
Definition tag_separation (seps : list (Z * Z)) (g : Rag) (i : nat) : Rag :=
  let e := nth i seps (0, 0) in
  add_exclusion (add_exclusion g (fst e) i) (snd e) i.

(** the same for the separations from index [a] on, [l] being the ones
    still to tag *)
Definition tag_from (a : nat) (l : list (Z * Z)) (g : Rag) (i : nat) : Rag :=
  let e := nth (i - a) l (0, 0) in
  add_exclusion (add_exclusion g (fst e) i) (snd e) i.

Definition tag_separations (s : Solver Rag Features Policy)
  : Solver Rag Features Policy :=
  set_rag s (fold_left (tag_separation (separate s))
               (seq 0 (length (separate s))) (rag s)).

Definition replay_history (s : Solver Rag Features Policy)
  : Solver Rag Features Policy :=
  set_rag s (replay_merge_history (rag s) (history s)).

Definition relearn_steps (s : Solver Rag Features Policy)
  : Solver Rag Features Policy :=
  replay_history (tag_separations (reset_graph (install_policy (train s) s))).

(** what [send_segmentation] does once the graph is rebuilt *)
Definition serve_table (s : Solver Rag Features Policy)
  : Solver Rag Features Policy :=
  let g := agglomerate (rag s) half in
  let dst := get_map g half in
  send_json (set_rag s g) (lut_message (py_range (Z.of_nat (length dst))) dst).

(** the handler [listen] runs for a message: [None] for the commands on
    which it returns *)
Definition handler (m : message) (s : Solver Rag Features Policy)
  : option (Solver Rag Features Policy * result unit) :=
  if String.eqb (msg_type m) "merge" then
    match p_segments (msg_data m) with
    | Some segments => Some (learn_merge segments s)
    | None => Some (s, Raise KeyError)
    end
  else if String.eqb (msg_type m) "separate" then
    match p_segments (msg_data m) with
    | Some fragments => Some (learn_separation fragments s)
    | None => Some (s, Raise KeyError)
    end
  else if String.eqb (msg_type m) "request" then
    match p_what (msg_data m) with
    | Some what =>
        if String.eqb what "fragment-segment-lut"
        then Some (send_segmentation s, Ok tt)
        else Some (s, Ok tt)
    | None => Some (s, Raise KeyError)
    end
  else None.

End Vocabulary.

(** ** More vocabulary: runs of the loop *)

Section RunVocabulary.
Context {Rag Features Classifier Policy : Type}.
Context `{C : Collab Rag Features Classifier Policy}.

(** a request for the lookup table *)
Definition is_lut_request (m : message) : bool :=
  String.eqb (msg_type m) "request"
  && match p_what (msg_data m) with
     | Some what => String.eqb what "fragment-segment-lut"
     | None => false
     end.

(** the lists of [s'] continue those of [s] *)
Definition log_extends (s s' : Solver Rag Features Policy) : Prop :=
  (exists l, history s' = history s ++ l)
  /\ (exists l, separate s' = separate s ++ l)
  /\ (exists l, features s' = features s ++ l)
  /\ (exists l, targets s' = targets s ++ l)
  /\ (exists l, sent s' = sent s ++ l)
  /\ (exists l, console s' = console s ++ l).

(** the attributes set by the constructor and never assigned again *)
Definition frozen (s s' : Solver Rag Features Policy) : Prop :=
  labels s' = labels s /\ original_rag s' = original_rag s
  /\ relearn_threshold s' = relearn_threshold s
  /\ relearn_trigger s' = relearn_trigger s.

(** why the handler of message [m], run in state [s], can raise [e] *)
Definition crash_cause (e : exn) (m : message)
    (s : Solver Rag Features Policy) : Prop :=
  match e with
  | StopIteration =>
      msg_type m = "merge"%string
      /\ exists segments, p_segments (msg_data m) = Some segments
                          /\ selection (rag s) segments = []
  | ValueError =>
      msg_type m = "separate"%string
      /\ exists fragments, p_segments (msg_data m) = Some fragments
                           /\ length fragments <> 2%nat
  | KeyError =>
      (p_segments (msg_data m) = None
       /\ (msg_type m = "merge"%string \/ msg_type m = "separate"%string))
      \/ (msg_type m = "request"%string /\ p_what (msg_data m) = None)
      \/ (msg_type m = "merge"%string
          /\ exists segments, p_segments (msg_data m) = Some segments
               /\ snd (learn_merge segments s) = Raise KeyError)
  end.

End RunVocabulary.

(** ** The loop on what [recv_json] returns *)

(** A JSON object as [recv_json] returns it: either of the two keys the
    loop reads, [type] and [data], may be missing. *)
Record received : Type := mkReceived {
  r_type : option string;
  r_data : option payload
}.

(** a message, which carries both keys *)
Definition envelope (m : message) : received :=
  mkReceived (Some (msg_type m)) (Some (msg_data m)).

Section Envelope.
Context {Rag Features Classifier Policy : Type}.
Context `{C : Collab Rag Features Classifier Policy}.

Fixpoint listen_raw (inbox : list received) (s : Solver Rag Features Policy)
  : Solver Rag Features Policy * status * list received :=
  match inbox with
  | [] => (s, Listening, [])
  | message :: rest =>
      match r_type message with          (* command = message['type'] *)
      | None => (s, Crashed KeyError, rest)
      | Some command =>
      match r_data message with          (* data = message['data'] *)
      | None => (s, Crashed KeyError, rest)
      | Some data =>
      if String.eqb command "merge" then
        match p_segments data with
        | None => (s, Crashed KeyError, rest)
        | Some segments =>
            match learn_merge segments s with
            | (s, Ok _) => listen_raw rest s
            | (s, Raise e) => (s, Crashed e, rest)
            end
        end
      else if String.eqb command "separate" then
        match p_segments data with
        | None => (s, Crashed KeyError, rest)
        | Some segments =>
            match learn_separation segments s with
            | (s, Ok _) => listen_raw rest s
            | (s, Raise e) => (s, Crashed e, rest)
            end
        end
      else if String.eqb command "request" then
        match p_what data with
        | None => (s, Crashed KeyError, rest)
        | Some what =>
            if String.eqb what "fragment-segment-lut"
            then listen_raw rest (send_segmentation s)
            else listen_raw rest s
        end
      else if String.eqb command "stop" then (s, Stopped, rest)
      else (print s (NotRecognized command), Stopped, rest)
      end
      end
  end.


End Envelope.

(** a correction as the simulator words it: a merge command with its
    segments or a separate command with a pair *)
Definition is_correction (m : message) : Prop :=
  (msg_type m = "merge"%string
   /\ exists segments, p_segments (msg_data m) = Some segments)
  \/ (msg_type m = "separate"%string
      /\ exists a b, p_segments (msg_data m) = Some [a; b]).

(** * ray.option_manager: the options of the command-line tools

    A shallow embedding of [src/ray/option_manager.py].  Dictionaries are
    association lists in insertion order, since [load_config] walks
    [options_config] and stops at the first exception.  The argument parser
    is the [argparse] object handed to the manager: only [add_argument] is
    called on it. *)
Module Options.

(** The values an option can take: what JSON and [argparse] produce. *)
#[warnings="-register-all"]
Inductive pyval : Type :=
| PNone
| PBool (b : bool)
| PInt (z : Z)
| PStr (s : string)
| PList (l : list pyval).

(** [v is None] *)
Definition is_None (v : pyval) : bool :=
  match v with PNone => true | _ => false end.

(** the truth value of [v] in [if v:] *)
Definition truthy (v : pyval) : bool :=
  match v with
  | PNone => false
  | PBool b => b
  | PInt z => negb (z =? 0)
  | PStr s => negb (String.eqb s "")
  | PList l => match l with [] => false | _ :: _ => true end
  end.

(** [v == True] *)
Definition eq_True (v : pyval) : bool :=
  match v with
  | PBool b => b
  | PInt z => z =? 1
  | _ => false
  end.

(** the [dtype] of an option *)
Inductive dtype : Type := Tbool | Tstr | Tint | Tfloat.

Definition is_bool (t : dtype) : bool :=
  match t with Tbool => true | _ => false end.

(** the exceptions of the module *)
Inductive error : Type :=
| NeedsToBeSpecified (name : string)
| NameError  (* name 'overriden' is not defined *)
| DoesNotExist (name : string)
| NonExistentOption
| DuplicateName (name : string)
| BoolWithoutDefault (name : string)
| NotCallable  (* calling a [verify_fn] that is [None] *)
| ArgumentError  (* raised by [add_argument] *)
| VerifyError (what : string).  (* raised by a verify function *)

Inductive outcome (A : Type) : Type :=
| Done (a : A)
| Fail (e : error).
Arguments Done {A} a.
Arguments Fail {A} e.

(** *** Dictionaries *)

Definition dict (V : Type) : Type := list (string * V).

Fixpoint dict_get {V : Type} (k : string) (d : dict V) : option V :=
  match d with
  | [] => None
  | (k', v) :: rest => if String.eqb k k' then Some v else dict_get k rest
  end.

(** [d[k] = v] *)
Fixpoint dict_set {V : Type} (k : string) (v : V) (d : dict V) : dict V :=
  match d with
  | [] => [(k, v)]
  | (k', v') :: rest =>
      if String.eqb k k' then (k, v) :: rest else (k', v') :: dict_set k v rest
  end.

(** [k in d] *)
Definition dict_mem {V : Type} (k : string) (d : dict V) : bool :=
  match dict_get k d with Some _ => true | None => false end.

(** [name.replace('-', '_')] *)
Fixpoint replace_dash (name : string) : string :=
  match name with
  | EmptyString => EmptyString
  | String c rest =>
      String (if Ascii.eqb c "-"%char then "_"%char else c) (replace_dash rest)
  end.

(** *** [OptionConfig] and [OptionNamespace] *)

(** the attributes of the options object *)
Definition namespace : Type := dict pyval.

(** A verify function is called with the manager, the options and the
    logger; the model follows what it does to the options and whether it
    raises. *)
Definition verify : Type := namespace -> outcome namespace.

Record OptionConfig : Type := mkOptionConfig {
  description : string;
  default_val : pyval;
  required : bool;
  option_dtype : dtype;
  warning : bool;
  verify_fn : option verify
}.

(** [OptionNamespace.get_value] *)
Definition get_value (ns : namespace) (name : string) : outcome pyval :=
  let name := replace_dash name in
  match dict_get name ns with
  | Some v => Done v
  | None => Fail (DoesNotExist name)
  end.

(** [OptionNamespace.__contains__] *)
Definition contains (ns : namespace) (key : string) : bool := dict_mem key ns.

(** *** The logger *)

Inductive text : Type :=
| ConfigNotSupplied
| ErrorOpening (file_name : string)
| NotSpecified (name : string)
| SetToDefault (name : string) (default : pyval)
| OverriddenTo (name : string) (default : pyval)
| WasSetTo (name : string) (default : pyval).

Inductive record : Type :=
| Warning (t : text)
| Debug (t : text).

(** *** [OptionManager] *)

(** what [add_argument] is called with; [help] is [None] for
    [argparse.SUPPRESS], and [default] is always [None] *)
Record argument : Type := mkArgument {
  flags : list string;
  action : option string;
  arg_type : option dtype;
  nargs : pyval;
  help : option string
}.

Section Manager.
Variable Parser : Type.
(** [arg_parser.add_argument(...)]; [None] when it raises *)
Variable add_argument : Parser -> argument -> option Parser.

Record OptionManager : Type := mkOptionManager {
  master_logger : list record;
  options_config : dict OptionConfig;
  options : namespace;
  arg_parser : Parser
}.

Definition log (m : OptionManager) (r : record) : OptionManager :=
  mkOptionManager (master_logger m ++ [r]) (options_config m) (options m)
    (arg_parser m).

Definition set_options (m : OptionManager) (ns : namespace) : OptionManager :=
  mkOptionManager (master_logger m) (options_config m) ns (arg_parser m).

Definition set_options_config (m : OptionManager) (c : dict OptionConfig)
  : OptionManager :=
  mkOptionManager (master_logger m) c (options m) (arg_parser m).

Definition set_arg_parser (m : OptionManager) (p : Parser) : OptionManager :=
  mkOptionManager (master_logger m) (options_config m) (options m) p.

(** [OptionManager.__init__] *)
Definition new (parser : Parser) : OptionManager :=
  mkOptionManager [] [] [] parser.

(** [setattr(self.options, name, value)] *)
Definition setattr (m : OptionManager) (name : string) (v : pyval)
  : OptionManager :=
  set_options m (dict_set name v (options m)).

(** *** [load_config] *)

(** the file part: [fs] is the file system, [None] for a file that cannot
    be opened or parsed *)
Definition read_config (file_name : option string)
    (fs : string -> option (dict pyval)) (m : OptionManager)
  : OptionManager * option (dict pyval) :=
  match file_name with
  | None => (log m (Warning ConfigNotSupplied), None)
  | Some f =>
      match fs f with
      | Some json_data => (m, Some json_data)
      | None => (log m (Warning (ErrorOpening f)), None)
      end
  end.

(** [option_val] and [overridden] for one option; [args_dict] is
    [args.__dict__] *)
Definition lookup_value (json_data args_dict : option (dict pyval))
    (name : string) : pyval * bool :=
  let option_val :=
    match json_data with
    | Some d => match dict_get name d with Some v => v | None => PNone end
    | None => PNone
    end in
  match args_dict with
  | Some d =>
      match dict_get name d with
      | Some v => (v, true)
      | None => (option_val, false)
      end
  | None => (option_val, false)
  end.

(** the body of the first loop *)
Definition load_option (json_data args_dict : option (dict pyval))
    (m : OptionManager) (entry : string * OptionConfig)
  : OptionManager * outcome unit :=
  let (name, option) := entry in
  let (option_val, overridden) := lookup_value json_data args_dict name in
  let logged :=
    if required option && is_None option_val
    then Fail (NeedsToBeSpecified name)
    else if warning option && is_None option_val
    then Done (log m (Warning (NotSpecified name)))
    else if is_None option_val
    then Done (log m (Debug (SetToDefault name (default_val option))))
    else if truthy option_val
    then Fail NameError  (* [overriden] is evaluated *)
    else Done (log m (Debug (WasSetTo name (default_val option)))) in
  match logged with
  | Fail e => (m, Fail e)
  | Done m =>
      if truthy option_val
      then (setattr m (replace_dash name) option_val, Done tt)
      else (setattr m (replace_dash name) (default_val option), Done tt)
  end.

Fixpoint load_options (json_data args_dict : option (dict pyval))
    (entries : dict OptionConfig) (m : OptionManager)
  : OptionManager * outcome unit :=
  match entries with
  | [] => (m, Done tt)
  | entry :: rest =>
      match load_option json_data args_dict m entry with
      | (m, Done _) => load_options json_data args_dict rest m
      | (m, Fail e) => (m, Fail e)
      end
  end.

(** the second loop *)
Fixpoint verify_options (entries : dict OptionConfig) (m : OptionManager)
  : OptionManager * outcome unit :=
  match entries with
  | [] => (m, Done tt)
  | (name, option) :: rest =>
      match verify_fn option with
      | None => verify_options rest m
      | Some f =>
          match f (options m) with
          | Done ns => verify_options rest (set_options m ns)
          | Fail e => (m, Fail e)
          end
      end
  end.

Definition load_config (file_name : option string)
    (args : option (dict pyval)) (fs : string -> option (dict pyval))
    (m : OptionManager) : OptionManager * outcome namespace :=
  let (m, json_data) := read_config file_name fs m in
  match load_options json_data args (options_config m) m with
  | (m, Fail e) => (m, Fail e)
  | (m, Done _) =>
      match verify_options (options_config m) m with
      | (m, Fail e) => (m, Fail e)
      | (m, Done _) => (m, Done (options m))
      end
  end.

(** *** [verify_option] *)

Definition verify_option (m : OptionManager) (name : string)
  : OptionManager * outcome unit :=
  match dict_get name (options_config m) with
  | None => (m, Fail NonExistentOption)
  | Some option =>
      match verify_fn option with
      | None => (m, Fail NotCallable)
      | Some f =>
          match f (options m) with
          | Done ns => (set_options m ns, Done tt)
          | Fail e => (m, Fail e)
          end
      end
  end.

(** *** [export_json]: the dictionary that is written to the file *)

Fixpoint export_entries (ns : namespace) (entries : dict OptionConfig)
    (json_data : dict pyval) : outcome (dict pyval) :=
  match entries with
  | [] => Done json_data
  | (name, _) :: rest =>
      match get_value ns name with
      | Fail e => Fail e
      | Done option_val =>
          if is_None option_val then export_entries ns rest json_data
          else export_entries ns rest (dict_set name option_val json_data)
      end
  end.

Definition export_json (m : OptionManager) (json_data : option (dict pyval))
  : outcome (dict pyval) :=
  export_entries (options m) (options_config m)
    (match json_data with Some d => d | None => [] end).

(** *** [create_option] *)

Definition create_option (m : OptionManager) (unique_name description : string)
    (default : pyval) (req : bool) (t : dtype) (vf : option verify)
    (num_args : pyval) (shortcut : option string) (warn hidden : bool)
  : OptionManager * outcome unit :=
  if contains (options m) unique_name
  then (m, Fail (DuplicateName unique_name))
  else
    let option := mkOptionConfig description default req t warn vf in
    let m := set_options_config m (dict_set unique_name option (options_config m)) in
    let help_message := if hidden then None else Some description in
    let names :=
      match shortcut with
      | Some sc =>
          if String.eqb sc "" then [("--" ++ unique_name)%string]
          else [("--" ++ unique_name)%string; ("-" ++ sc)%string]
      | None => [("--" ++ unique_name)%string]
      end in
    let add := fun a =>
      match add_argument (arg_parser m) a with
      | Some parser => (set_arg_parser m parser, Done tt)
      | None => (m, Fail ArgumentError)
      end in
    if is_bool t then
      if is_None default then (m, Fail (BoolWithoutDefault unique_name))
      else
        let bool_val :=
          if eq_True default then "store_false"%string
          else "store_true"%string in
        add (mkArgument names (Some bool_val) None PNone help_message)
    else add (mkArgument names None (Some t) num_args help_message).

End Manager.

Arguments master_logger {Parser} o.
Arguments options_config {Parser} o.
Arguments options {Parser} o.
Arguments arg_parser {Parser} o.

(** *** Vocabulary of the statements *)

(** the value [load_config] finds for an option *)
Definition given (json_data args_dict : option (dict pyval)) (name : string)
  : pyval :=
  fst (lookup_value json_data args_dict name).

(** the options with every registered option at its default *)
Definition set_default (ns : namespace) (entry : string * OptionConfig)
  : namespace :=
  dict_set (replace_dash (fst entry)) (default_val (snd entry)) ns.

Definition with_defaults (entries : dict OptionConfig) (ns : namespace)
  : namespace :=
  fold_left set_default entries ns.

Definition no_verify (entries : dict OptionConfig) : Prop :=
  forall name option, In (name, option) entries -> verify_fn option = None.

(** *** A parser to run the manager with: it records the arguments and,
    as [argparse] does by default, refuses a flag it already has *)

Definition Recorder : Type := list argument.

Definition has_flag (p : Recorder) (f : string) : bool :=
  existsb (fun a => existsb (String.eqb f) (flags a)) p.

Definition record_argument (p : Recorder) (a : argument) : option Recorder :=
  if existsb (has_flag p) (flags a) then None else Some (p ++ [a]).

(** a manager with two options that are not required, [out-dir] and
    [verbose] *)
Definition two_options : OptionManager Recorder :=
  let m := new Recorder [] in
  let m := fst (create_option Recorder record_argument m "out-dir" "where to write"
                  (PStr "") false Tstr None PNone (Some "o"%string) false false) in
  fst (create_option Recorder record_argument m "verbose" "say more"
         (PBool false) false Tbool None PNone None false false).

(** a file system in which every configuration file sets [out-dir] *)
Definition results_file (f : string) : option (dict pyval) :=
  Some [("out-dir"%string, PStr "results")].





End Options.

(** * Facts *)

Lemma mem_In (x : Z) (l : list Z) : mem x l = true <-> In x l.
Proof. unfold mem; destruct (in_dec Z.eq_dec x l); split; intros; congruence || assumption. Qed.

Lemma mem_not_In (x : Z) (l : list Z) : mem x l = false <-> ~ In x l.
Proof. unfold mem; destruct (in_dec Z.eq_dec x l); split; intros; congruence || tauto. Qed.

Lemma NoDup_snoc (l : list Z) (x : Z) : NoDup l -> ~ In x l -> NoDup (l ++ [x]).
Proof.
  induction l as [|a l IH]; simpl; intros Hl Hx.
  - constructor; [tauto | constructor].
  - inversion Hl; subst. constructor.
    + rewrite in_app_iff; simpl. intros [?|[?|[]]]; [tauto | subst; tauto].
    + apply IH; tauto.
Qed.

Lemma linked_weaken (E E' : Z -> Z -> Prop) (rest : list Z) :
  forall seen seen',
    (forall x y, In x seen -> In y rest -> E x y ->
                 exists x', In x' seen' /\ E' x' y) ->
    (forall x y, In x rest -> In y rest -> E x y -> E' x y) ->
    linked E seen rest -> linked E' seen' rest.
Proof.
  induction rest as [|y r IH]; simpl; intros seen seen' Hs He; [tauto|].
  intros [[x [Hx Exy]] Hl]. split.
  - apply (Hs x y); auto.
  - apply (IH (seen ++ [y]) (seen' ++ [y])); auto.
    intros x0 y0 Hx0 Hy0 E0. apply in_app_iff in Hx0 as [Hx0|[<-|[]]].
    + destruct (Hs x0 y0) as [x' [? ?]]; auto.
      exists x'; split; [apply in_app_iff|]; auto.
    + exists y; split; [apply in_app_iff; simpl; auto|]. apply He; auto.
Qed.

(** ** The depth-first order *)

Section DfsFacts.
Variable adj : Z -> list Z.
Variable V : list Z.
Hypothesis V_nodup : NoDup V.
Hypothesis V_closed : forall v w, In v V -> In w (adj v) -> In w V.

Local Abbreviation E := (edge_of adj).

Lemma dfs_loop_nodup (fuel : nat) :
  forall stack acc, NoDup acc -> NoDup (dfs_loop adj fuel stack acc).
Proof.
  induction fuel as [|f IH]; simpl; intros stack acc Hacc; [assumption|].
  destruct stack as [|v rest]; [assumption|].
  destruct (mem v acc) eqn:Hv; apply IH; [assumption|].
  apply NoDup_snoc; [assumption | now apply mem_not_In].
Qed.

Lemma dfs_loop_incl (fuel : nat) :
  forall stack acc, incl stack V -> incl acc V ->
    incl (dfs_loop adj fuel stack acc) V.
Proof.
  induction fuel as [|f IH]; simpl; intros stack acc Hs Hacc; [assumption|].
  destruct stack as [|v rest]; [assumption|].
  assert (Hv : In v V) by (apply Hs; simpl; auto).
  assert (Hrest : incl rest V) by (intros x Hx; apply Hs; simpl; auto).
  destruct (mem v acc); apply IH; auto.
  - apply incl_app; [intros w Hw; eapply V_closed; eauto | assumption].
  - apply incl_app; [assumption | intros x [<-|[]]; assumption].
Qed.

Local Abbreviation todo := (weight adj V).

Lemma filter_unvisited_other (v : Z) (acc l : list Z) :
  ~ In v l ->
  filter (fun u => negb (mem u (acc ++ [v]))) l
  = filter (fun u => negb (mem u acc)) l.
Proof.
  induction l as [|u l IH]; simpl; intros Hv; [reflexivity|].
  rewrite IH by tauto.
  replace (mem u (acc ++ [v])) with (mem u acc); [reflexivity|].
  destruct (mem u acc) eqn:Hu.
  - symmetry; apply mem_In, in_app_iff; left; now apply mem_In.
  - symmetry; apply mem_not_In. rewrite in_app_iff; simpl.
    apply mem_not_In in Hu. intros [?|[?|[]]]; [tauto | subst; tauto].
Qed.

Lemma weight_enter_gen (v : Z) (acc l : list Z) :
  NoDup l -> In v l -> ~ In v acc ->
  list_sum (map (fun v => S (length (adj v)))
              (filter (fun u => negb (mem u acc)) l))
  = (S (length (adj v))
     + list_sum (map (fun v => S (length (adj v)))
                   (filter (fun u => negb (mem u (acc ++ [v]))) l)))%nat.
Proof.
  induction l as [|u l IH]; simpl; intros Hl Hin Hacc; [contradiction|].
  inversion Hl as [|? ? Hu Hl']; subst.
  destruct (Z.eq_dec u v) as [->|Hne].
  - rewrite (filter_unvisited_other v acc l Hu).
    replace (mem v acc) with false by (symmetry; now apply mem_not_In).
    replace (mem v (acc ++ [v])) with true
      by (symmetry; apply mem_In, in_app_iff; simpl; auto).
    reflexivity.
  - destruct Hin as [?|Hin]; [contradiction|].
    replace (mem u (acc ++ [v])) with (mem u acc).
    + destruct (mem u acc); simpl; rewrite (IH Hl' Hin Hacc); lia.
    + destruct (mem u acc) eqn:Hu'.
      * symmetry; apply mem_In, in_app_iff; left; now apply mem_In.
      * symmetry; apply mem_not_In. rewrite in_app_iff; simpl.
        apply mem_not_In in Hu'. intros [?|[?|[]]]; [tauto | congruence].
Qed.

Lemma dfs_loop_covers (fuel : nat) :
  forall stack acc,
    incl stack V -> (length stack + todo acc <= fuel)%nat ->
    forall x, In x stack \/ In x acc -> In x (dfs_loop adj fuel stack acc).
Proof.
  induction fuel as [|f IH]; simpl; intros stack acc Hs Hm x Hx.
  - destruct stack; simpl in Hm; [destruct Hx as [[]|?]; assumption | lia].
  - destruct stack as [|v rest]; [destruct Hx as [[]|?]; assumption|].
    assert (Hv : In v V) by (apply Hs; simpl; auto).
    assert (Hrest : incl rest V) by (intros y Hy; apply Hs; simpl; auto).
    destruct (mem v acc) eqn:Hmem.
    + apply IH; [assumption | simpl in Hm; lia |].
      destruct Hx as [[<-|Hx]|Hx]; auto. right; now apply mem_In.
    + apply mem_not_In in Hmem.
      apply IH.
      * apply incl_app; [intros w Hw; eapply V_closed; eauto | assumption].
      * unfold weight in *.
        rewrite (weight_enter_gen v acc V V_nodup Hv Hmem) in Hm.
        rewrite length_app. simpl in Hm. lia.
      * rewrite !in_app_iff; simpl.
        destruct Hx as [[<-|Hx]|Hx]; auto.
Qed.

(** more fuel than the work still to do changes nothing *)
Lemma dfs_loop_fuel_enough (fuel : nat) :
  forall stack acc extra,
    incl stack V -> (length stack + todo acc <= fuel)%nat ->
    dfs_loop adj (fuel + extra) stack acc = dfs_loop adj fuel stack acc.
Proof.
  induction fuel as [|f IH]; intros stack acc extra Hs Hm.
  - destruct stack; simpl in Hm; [|lia]. destruct extra; reflexivity.
  - simpl. destruct stack as [|v rest]; [reflexivity|].
    assert (Hv : In v V) by (apply Hs; simpl; auto).
    assert (Hrest : incl rest V) by (intros y Hy; apply Hs; simpl; auto).
    destruct (mem v acc) eqn:Hmem.
    + apply IH; [assumption | simpl in Hm; lia].
    + apply mem_not_In in Hmem. apply IH.
      * apply incl_app; [intros w Hw; eapply V_closed; eauto | assumption].
      * unfold weight in *.
        rewrite (weight_enter_gen v acc V V_nodup Hv Hmem) in Hm.
        rewrite length_app. simpl in Hm. lia.
Qed.

Lemma closed_reach (acc : list Z) :
  (forall u w, In u acc -> E u w -> In w acc) ->
  forall x v, clos_refl_trans Z E x v -> In x acc -> In v acc.
Proof.
  intros Hc x v Hr; induction Hr; eauto.
Qed.

Lemma dfs_loop_linked (fuel : nat) :
  forall pushed starts acc,
    (forall w, In w pushed -> exists x, In x acc /\ E x w) ->
    (forall u w, In u acc -> E u w -> In w acc \/ In w pushed) ->
    (forall v, In v starts -> exists x, In x acc /\ clos_refl_trans Z E x v) ->
    exists new, dfs_loop adj fuel (pushed ++ starts) acc = acc ++ new
                /\ linked E acc new.
Proof.
  induction fuel as [|f IH]; simpl; intros pushed starts acc Hp Hc Hs.
  - exists []; rewrite app_nil_r; simpl; auto.
  - destruct pushed as [|w p]; simpl.
    + destruct starts as [|v st]; [exists []; rewrite app_nil_r; simpl; auto|].
      assert (Hv : In v acc).
      { destruct (Hs v) as [x [Hx Hr]]; [simpl; auto|].
        apply (closed_reach acc) with (x := x); auto.
        intros u w Hu Huw. destruct (Hc u w Hu Huw) as [?|[]]; assumption. }
      apply mem_In in Hv; rewrite Hv.
      apply (IH [] st acc); auto. intros v' Hv'; apply Hs; simpl; auto.
    + destruct (mem w acc) eqn:Hw.
      * apply (IH p starts acc); auto.
        -- intros w' Hw'; apply Hp; simpl; auto.
        -- intros u w' Hu Huw. destruct (Hc u w' Hu Huw) as [?|[<-|?]]; auto.
           left; now apply mem_In.
      * destruct (IH (adj w ++ p) starts (acc ++ [w])) as [new [Heq Hl]].
        -- intros w' Hw'. apply in_app_iff in Hw' as [Hw'|Hw'].
           ++ exists w; split; [apply in_app_iff; simpl; auto | exact Hw'].
           ++ destruct (Hp w') as [x [? ?]]; [simpl; auto|].
              exists x; split; [apply in_app_iff; auto | assumption].
        -- intros u w' Hu Huw. rewrite !in_app_iff; simpl.
           apply in_app_iff in Hu as [Hu|[<-|[]]]; [|auto].
           destruct (Hc u w' Hu Huw) as [?|[<-|?]]; auto.
        -- intros v Hv. destruct (Hs v Hv) as [x [? ?]].
           exists x; split; [apply in_app_iff; auto | assumption].
        -- exists (w :: new). rewrite <- app_assoc in Heq.
           rewrite Heq, <- app_assoc; simpl. repeat split; auto.
           apply Hp; simpl; auto.
Qed.

Lemma weight_start : todo [] = list_sum (map (fun v => S (length (adj v))) V).
Proof.
  unfold weight. f_equal. f_equal.
  clear; induction V as [|a l IH]; [reflexivity|].
  change (a :: filter (fun v => negb (mem v [])) l = a :: l).
  f_equal; exact IH.
Qed.

(** the search ends within its fuel: any larger amount gives the same
    order *)
Lemma dfs_fuel_enough (extra : nat) :
  dfs_loop adj (dfs_fuel adj V + extra) V [] = dfs_preorder_nodes adj V.
Proof.
  unfold dfs_preorder_nodes. apply dfs_loop_fuel_enough; [apply incl_refl|].
  rewrite weight_start. apply Nat.le_refl.
Qed.

(** the order lists every node exactly once, connected or not *)
Lemma dfs_permutation : Permutation (dfs_preorder_nodes adj V) V.
Proof.
  unfold dfs_preorder_nodes. apply NoDup_Permutation; auto.
  - apply dfs_loop_nodup; constructor.
  - intros x; split.
    + apply dfs_loop_incl; [apply incl_refl | intros ? []].
    + intros Hx. apply dfs_loop_covers; auto; [apply incl_refl|].
      rewrite weight_start. apply Nat.le_refl.
Qed.

(** on a connected selection every node after the first has an edge from
    an earlier one *)
Lemma dfs_connected_linked :
  connected adj V ->
  match dfs_preorder_nodes adj V with
  | [] => V = []
  | x0 :: rest => linked E [x0] rest
  end.
Proof.
  intros Hconn. unfold dfs_preorder_nodes.
  destruct V as [|x0 V'] eqn:HV; [reflexivity|].
  unfold dfs_fuel; simpl.
  destruct (dfs_loop_linked
              (length V' + S (length (adj x0)
                 + list_sum (map (fun v => S (length (adj v))) V')))
              (adj x0) V' [x0]) as [new [Heq Hl]].
  - intros w Hw; exists x0; simpl; auto.
  - intros u w [<-|[]] Huw; auto.
  - intros v Hv; exists x0; split; [simpl; auto|].
    apply Hconn; simpl; auto.
  - rewrite Heq; simpl. exact Hl.
Qed.

End DfsFacts.

(** ** The handlers *)

Section SessionFacts.
Context {Rag Features Classifier Policy : Type}.
Context `{C : Collab Rag Features Classifier Policy}.

Local Abbreviation State := (Solver Rag Features Policy).

Lemma merge_appended_refl (s : State) : merge_appended 0 s s.
Proof.
  exists [], []; simpl; rewrite !app_nil_r; repeat split; reflexivity.
Qed.

(** whatever the order and however the loop ends, the three logs grow
    together, and only a [KeyError] of the feature manager ends it early *)
Lemma merge_loop_outcome (ordered : list Z) :
  forall (s0 : Z) (s : State),
    exists j, merge_appended j s (fst (merge_loop ordered s0 s)) /\
      match snd (merge_loop ordered s0 s) with
      | Ok _ => j = length ordered
      | Raise e => e = KeyError /\ (j < length ordered)%nat
      end.
Proof.
  induction ordered as [|s1 rest IH]; simpl; intros s0 s.
  - exists 0%nat; split; [apply merge_appended_refl | reflexivity].
  - destruct (feature_manager (rag s) s0 s1) as [fv|] eqn:Hfv; simpl.
    + destruct (merge_nodes (rag s) s0 s1) as [g n] eqn:Hm.
      match goal with |- context [merge_loop rest n ?t] =>
        destruct (IH n t) as [j [Happ Hres]]; set (s1' := t) in * end.
      exists (S j); split.
      * destruct Happ as (hs & fs & Hh & Hf & H1 & H2 & H3 & H4 & H5 & H6).
        exists ((s0, s1) :: hs), (fv :: fs); simpl.
        rewrite H1, H2, H3, H4, H5, H6; unfold s1'; simpl.
        rewrite <- !app_assoc; simpl.
        repeat split; auto.
      * destruct (snd (merge_loop rest n s1')); [lia|].
        destruct Hres; split; [assumption | lia].
    + exists 0%nat; split; [apply merge_appended_refl | split; [reflexivity | lia]].
Qed.

Lemma sub_adj_in (g : Rag) (members : list Z) (v w : Z) :
  In w (sub_adj g members v) <-> In w (rag_neighbors g v) /\ In w members.
Proof.
  unfold sub_adj. rewrite filter_In, mem_In. tauto.
Qed.

Lemma selection_nodup (g : Rag) (segments : list Z) : NoDup (selection g segments).
Proof.
  unfold selection, sub_nodes, resolve, py_set.
  apply NoDup_filter, NoDup_nodup.
Qed.

Lemma selection_live (g : Rag) (segments : list Z) (x : Z) :
  In x (selection g segments) -> In x (rag_nodes g).
Proof.
  unfold selection, sub_nodes. rewrite filter_In, mem_In. tauto.
Qed.

Lemma sub_nodes_idem (g : Rag) (l : list Z) :
  sub_nodes g (sub_nodes g l) = sub_nodes g l.
Proof.
  unfold sub_nodes. induction l as [|x l IH]; simpl; [reflexivity|].
  destruct (mem x (rag_nodes g)) eqn:Hx; simpl; [rewrite Hx|]; congruence.
Qed.

(** the order of [learn_merge] lists the selection, each segment once *)
Lemma merge_order_permutation (g : Rag) (segments : list Z) :
  Permutation (merge_order g segments) (selection g segments).
Proof.
  unfold merge_order. fold (selection g segments).
  apply dfs_permutation; [apply selection_nodup|].
  intros v w _ Hw. apply sub_adj_in in Hw. tauto.
Qed.

(** on a linked order the feature manager always finds its edge *)
Lemma merge_loop_linked `{!Contract C} (rest : list Z) :
  forall (s0 : Z) (s : State),
    NoDup rest -> ~ In s0 rest ->
    (forall x, In x rest -> In x (rag_nodes (rag s))) ->
    linked (has_edge (rag s)) [s0] rest ->
    exists s', merge_loop rest s0 s = (s', Ok tt).
Proof.
  induction rest as [|y r IH]; simpl; intros s0 s Hnd Hs0 Hlive Hl.
  - eauto.
  - destruct Hl as [[x [Hx Hxy]] Hl].
    destruct Hx as [Hx|[]]; subst x.
    inversion Hnd as [|? ? Hy Hr]; subst.
    destruct (feature_manager (rag s) s0 y) as [fv|] eqn:Hfv;
      [|exfalso; eapply features_of_edge; eauto].
    simpl. destruct (merge_nodes (rag s) s0 y) as [g n] eqn:Hm.
    apply IH; simpl; auto.
    + destruct (merge_nodes_id _ _ _ _ _ Hm) as [->|[->|Hn]]; auto.
    + intros z Hz. eapply merge_nodes_keeps; eauto; intros ->; tauto.
    + revert Hl. apply linked_weaken.
      * intros a b Ha Hb Hab. exists n; split; [simpl; auto|].
        assert (b <> s0) by (intros ->; tauto).
        assert (b <> y) by (intros ->; tauto).
        eapply merge_nodes_joins; eauto.
        simpl in Ha; destruct Ha as [<-|[<-|[]]]; auto.
      * intros a b Ha Hb Hab.
        eapply merge_nodes_frame; eauto; intros ->; tauto.
Qed.

Lemma resolve_singleton (g : Rag) (segments : list Z) (a : Z) :
  segments <> [] ->
  (forall x, In x segments -> highest_ancestor g x = a) ->
  resolve g segments = [a].
Proof.
  unfold resolve, py_set.
  induction segments as [|x l IH]; [congruence|]; intros _ Hall; simpl.
  rewrite (Hall x) by (simpl; auto).
  destruct l as [|y l'].
  - reflexivity.
  - rewrite IH; [|discriminate | intros z Hz; apply Hall; simpl; auto].
    destruct (in_dec Z.eq_dec a (map (highest_ancestor g) (y :: l'))) as [|Hn];
      [reflexivity|].
    exfalso; apply Hn. simpl; left. apply Hall; simpl; auto.
Qed.

Lemma listen_merge (segments : list Z) (rest : list message) (s : State) :
  listen (merge_message segments :: rest) s
  = after_handler (listen rest) rest (learn_merge segments s).
Proof. reflexivity. Qed.

Lemma listen_separate (fragments : list Z) (rest : list message) (s : State) :
  listen (separate_message fragments :: rest) s
  = after_handler (listen rest) rest (learn_separation fragments s).
Proof. reflexivity. Qed.

Lemma selection_of_live (g : Rag) (segments : list Z) :
  (forall x, In x (resolve g segments) -> In x (rag_nodes g)) ->
  selection g segments = resolve g segments.
Proof.
  unfold selection, sub_nodes. generalize (resolve g segments) as l.
  induction l as [|x l IH]; simpl; intros Hl; [reflexivity|].
  replace (mem x (rag_nodes g)) with true
    by (symmetry; apply mem_In, Hl; auto).
  f_equal; apply IH; auto.
Qed.

(** C3: a merge command whose ids resolve to a connected set of [k >= 2]
    distinct live segments returns normally and appends exactly [k - 1]
    pairs to the merge history, [k - 1] feature vectors to the features
    and [k - 1] MERGE labels to the targets. *)
Theorem learn_merge_connected `{!Contract C}
    (s : State) (segments : list Z) (k : nat) :
  let members := resolve (rag s) segments in
  (forall x, In x members -> In x (rag_nodes (rag s))) ->
  length members = k -> (2 <= k)%nat ->
  connected (sub_adj (rag s) members) members ->
  exists s', learn_merge segments s = (s', Ok tt)
             /\ merge_appended (k - 1) s s'.
Proof.
  intros members Hlive Hk Hk2 Hconn.
  pose proof (merge_order_permutation (rag s) segments) as Hperm.
  pose proof (selection_nodup (rag s) segments) as Hnd.
  assert (Hsel : selection (rag s) segments = members)
    by (apply selection_of_live; assumption).
  rewrite Hsel in Hperm, Hnd.
  assert (Hlinked :
    match merge_order (rag s) segments with
    | [] => members = []
    | x0 :: rest =>
        linked (fun a b => In b (sub_adj (rag s) members a)) [x0] rest
    end).
  { unfold merge_order. fold (selection (rag s) segments). rewrite Hsel.
    apply dfs_connected_linked; try assumption.
    intros v w _ Hw. apply sub_adj_in in Hw. tauto. }
  unfold learn_merge.
  destruct (merge_order (rag s) segments) as [|x0 rest] eqn:Hord.
  - rewrite Hlinked in Hk; simpl in Hk; lia.
  - assert (Hnd' : NoDup (x0 :: rest))
      by (eapply Permutation_NoDup; [symmetry; eassumption | assumption]).
    inversion Hnd' as [|? ? Hx0 Hrest]; subst.
    destruct (merge_loop_linked rest x0 s) as [s' Hs']; auto.
    + intros x Hx. apply Hlive. eapply Permutation_in; [eassumption|].
      simpl; auto.
    + revert Hlinked. apply linked_weaken; [|intros a b _ _ Hab].
      * intros a b Ha _ Hab. exists a; split; [assumption|].
        apply sub_adj_in in Hab. apply Hab.
      * apply sub_adj_in in Hab. apply Hab.
    + exists s'; split; [assumption|].
      destruct (merge_loop_outcome rest x0 s) as [j [Happ Hres]].
      rewrite Hs' in Happ, Hres; simpl in Happ, Hres.
      apply Permutation_length in Hperm; simpl in Hperm.
      replace (length members - 1)%nat with j by lia. assumption.
Qed.

(** C10: a non-empty merge command whose ids all resolve to one live
    segment changes nothing. *)
Theorem learn_merge_same_ancestor (s : State) (segments : list Z) (a : Z) :
  segments <> [] ->
  (forall x, In x segments -> highest_ancestor (rag s) x = a) ->
  In a (rag_nodes (rag s)) ->
  learn_merge segments s = (s, Ok tt).
Proof.
  intros Hne Hall Ha.
  pose proof (merge_order_permutation (rag s) segments) as Hperm.
  unfold selection in Hperm.
  rewrite (resolve_singleton (rag s) segments a Hne Hall) in Hperm.
  unfold sub_nodes in Hperm; simpl in Hperm.
  replace (mem a (rag_nodes (rag s))) with true in Hperm
    by (symmetry; now apply mem_In).
  apply Permutation_sym, Permutation_length_1_inv in Hperm.
  unfold learn_merge. rewrite Hperm. reflexivity.
Qed.

(** C7: a separate command naming the boundary body changes nothing, and
    the loop goes on with the next message in the same state. *)
Theorem learn_separation_boundary (s : State) (f0 f1 : Z) :
  f0 = boundary_body (rag s) \/ f1 = boundary_body (rag s) ->
  learn_separation [f0; f1] s = (s, Ok tt)
  /\ forall rest, listen (separate_message [f0; f1] :: rest) s = listen rest s.
Proof.
  intros Hb.
  assert (Hsep : learn_separation [f0; f1] s = (s, Ok tt)).
  { unfold learn_separation.
    replace (mem (boundary_body (rag s)) [f0; f1]) with true; [reflexivity|].
    symmetry; apply mem_In; simpl; intuition. }
  split; [assumption|].
  intros rest. rewrite listen_separate, Hsep. reflexivity.
Qed.

(** C5, as the code has it: when the feature manager raises for the pair
    that [separate_fragments] returned, the handler prints its diagnostic,
    leaves features, targets and both histories as they were, and the loop
    receives the next message.  The graph is not put back: it is the one
    [separate_fragments] left. *)
Theorem learn_separation_extraction_fails
    (s : State) (f0 f1 : Z) (g : Rag) (s0 s1 : Z) :
  f0 <> boundary_body (rag s) -> f1 <> boundary_body (rag s) ->
  separate_fragments (rag s) f0 f1 = (g, (s0, s1)) ->
  feature_manager g s0 s1 = None ->
  let s' := print (set_rag s g) (FailedToSplit s0 s1 f0 f1) in
  learn_separation [f0; f1] s = (s', Ok tt)
  /\ features s' = features s /\ targets s' = targets s
  /\ separate s' = separate s /\ history s' = history s
  /\ console s' = console s ++ [FailedToSplit s0 s1 f0 f1]
  /\ sent s' = sent s /\ rag s' = g
  /\ forall rest,
       listen (separate_message [f0; f1] :: rest) s = listen rest s'.
Proof.
  intros H0 H1 Hsep Hfm s'.
  assert (Hl : learn_separation [f0; f1] s = (s', Ok tt)).
  { unfold learn_separation.
    replace (mem (boundary_body (rag s)) [f0; f1]) with false.
    - rewrite Hsep; simpl. rewrite Hfm. reflexivity.
    - symmetry; apply mem_not_In; simpl; intuition. }
  repeat split; try reflexivity; [assumption|].
  intros rest. rewrite listen_separate, Hl. reflexivity.
Qed.

(** ** Relearning *)

Lemma fold_left_ext_in {A B : Type} (f f' : A -> B -> A) (l : list B) :
  (forall a b, In b l -> f a b = f' a b) ->
  forall a, fold_left f l a = fold_left f' l a.
Proof.
  induction l as [|b l IH]; simpl; intros Hf a; [reflexivity|].
  rewrite (Hf a b) by auto. apply IH; auto.
Qed.

Lemma tag_exclusions_indexed (l : list (Z * Z)) :
  forall (a : nat) (s : State),
    fold_left tag_exclusion (combine (seq a (length l)) l) s
    = set_rag s (fold_left (tag_from a l) (seq a (length l)) (rag s)).
Proof.
  induction l as [|[x0 x1] l IH]; intros a s.
  - destruct s; reflexivity.
  - cbn [length seq combine fold_left]. rewrite IH.
    transitivity
      (set_rag s (fold_left (tag_from (S a) l) (seq (S a) (length l))
                    (add_exclusion (add_exclusion (rag s) x0 a) x1 a)));
      [reflexivity|].
    f_equal.
    replace (tag_from a ((x0, x1) :: l) (rag s) a)
      with (add_exclusion (add_exclusion (rag s) x0 a) x1 a)
      by (unfold tag_from; rewrite Nat.sub_diag; reflexivity).
    apply fold_left_ext_in. intros g i Hi.
    apply in_seq in Hi. unfold tag_from.
    replace (i - a)%nat with (S (i - S a)) by lia. reflexivity.
Qed.

Lemma relearn_as_steps (s : State) : relearn s = relearn_steps s.
Proof.
  unfold relearn, relearn_steps, replay_history, tag_separations,
    reset_graph, install_policy, train, enumerate.
  cbn [policy set_policy set_rag separate rag history].
  rewrite tag_exclusions_indexed.
  cbn [policy set_policy set_rag separate rag history].
  erewrite fold_left_ext_in; [reflexivity|].
  intros g i _. unfold tag_from, tag_separation.
  rewrite Nat.sub_0_r. reflexivity.
Qed.

(** relearning rebuilds the graph and installs the policy; the log and
    the channel are not touched *)
Lemma relearn_frame (s : State) :
  labels (relearn s) = labels s /\ original_rag (relearn s) = original_rag s
  /\ history (relearn s) = history s /\ separate (relearn s) = separate s
  /\ features (relearn s) = features s /\ targets (relearn s) = targets s
  /\ sent (relearn s) = sent s /\ console (relearn s) = console s.
Proof.
  rewrite relearn_as_steps. repeat split; reflexivity.
Qed.

(** C4: [send_segmentation] relearns before anything else, and [relearn]
    trains the classifier on all features and targets, installs the policy
    derived from it, resets the graph to a copy of the original with that
    policy and a rebuilt merge queue, tags both nodes of separation [i]
    with [i], and replays the whole merge history, in this order. *)
Theorem relearn_then_serve (s : State) :
  send_segmentation s = serve_table (relearn s)
  /\ relearn s
     = replay_history
         (tag_separations (reset_graph (install_policy (train s) s)))
  /\ policy (relearn s)
     = Some (classifier_probability feature_manager
               (fit (features s) (targets s))).
Proof.
  split; [reflexivity|]. split; [apply relearn_as_steps|].
  rewrite relearn_as_steps. reflexivity.
Qed.

(** ** The correction log *)

Lemma count_occ_snoc (l : list Z) (x y : Z) :
  count_occ Z.eq_dec (l ++ [x]) y
  = (count_occ Z.eq_dec l y + if Z.eq_dec x y then 1 else 0)%nat.
Proof.
  rewrite count_occ_app; simpl. destruct (Z.eq_dec x y); reflexivity.
Qed.

Lemma merge_appended_invariant (j : nat) (s s' : State) :
  merge_appended j s s' -> log_invariant s -> log_invariant s'.
Proof.
  intros (hs & fs & Hh & Hf & H1 & H2 & H3 & H4 & _) (I1 & I2 & I3).
  unfold log_invariant. rewrite H1, H2, H3, H4.
  rewrite !length_app, !count_occ_app, repeat_length.
  rewrite count_occ_repeat_eq by reflexivity.
  rewrite count_occ_repeat_neq by (unfold MERGE_LABEL, SEPAR_LABEL; lia).
  lia.
Qed.

Lemma learn_merge_outcome (segments : list Z) (s : State) :
  exists j, merge_appended j s (fst (learn_merge segments s)) /\
    match snd (learn_merge segments s) with
    | Ok _ => S j = length (merge_order (rag s) segments)
    | Raise e =>
        (e = StopIteration /\ merge_order (rag s) segments = [] /\ j = 0%nat)
        \/ (e = KeyError /\ (S j < length (merge_order (rag s) segments))%nat)
    end.
Proof.
  unfold learn_merge.
  destruct (merge_order (rag s) segments) as [|s0 rest]; simpl.
  - exists 0%nat; split; [apply merge_appended_refl | auto].
  - destruct (merge_loop_outcome rest s0 s) as [j [Happ Hres]].
    exists j; split; [assumption|].
    destruct (snd (merge_loop rest s0 s)); [lia|].
    right. destruct Hres; split; [assumption | lia].
Qed.

Lemma learn_separation_invariant (fragments : list Z) (s : State) :
  log_invariant s -> log_invariant (fst (learn_separation fragments s)).
Proof.
  intros (I1 & I2 & I3). unfold learn_separation.
  destruct fragments as [|f0 [|f1 [|? ?]]]; simpl; try (repeat split; assumption).
  destruct (mem (boundary_body (rag s)) [f0; f1]); simpl;
    [repeat split; assumption|].
  destruct (separate_fragments (rag s) f0 f1) as [g [s0 s1]]; simpl.
  destruct (feature_manager g s0 s1); simpl.
  - unfold log_invariant; simpl.
    rewrite !length_app, !count_occ_snoc; simpl.
    destruct (Z.eq_dec SEPAR_LABEL MERGE_LABEL) as [E|_]; [discriminate E|].
    destruct (Z.eq_dec SEPAR_LABEL SEPAR_LABEL) as [_|E]; [|congruence].
    lia.
  - repeat split; assumption.
Qed.

(** C6: the log invariant (as many feature vectors as targets, one MERGE
    label per merge-history entry, one SEPARATE label per
    separation-history entry) is kept by [learn_merge], however it ends,
    by [learn_separation] and by [relearn]. *)
Theorem log_invariant_preserved (s : State) :
  log_invariant s ->
  (forall segments, log_invariant (fst (learn_merge segments s)))
  /\ (forall fragments, log_invariant (fst (learn_separation fragments s)))
  /\ log_invariant (relearn s).
Proof.
  intros Hinv. split; [|split].
  - intros segments.
    destruct (learn_merge_outcome segments s) as [j [Happ _]].
    eapply merge_appended_invariant; eauto.
  - intros fragments. now apply learn_separation_invariant.
  - destruct (relearn_frame s) as (_ & _ & H1 & H2 & H3 & H4 & _).
    destruct Hinv as (I1 & I2 & I3).
    unfold log_invariant. rewrite H1, H2, H3, H4. auto.
Qed.

Lemma init_log_invariant (lbls : list Z) (threshold : Z) :
  log_invariant (init lbls threshold).
Proof. repeat split. Qed.

Lemma send_segmentation_invariant (s : State) :
  log_invariant s -> log_invariant (send_segmentation s).
Proof.
  intros (I1 & I2 & I3).
  destruct (relearn_frame s) as (_ & _ & H1 & H2 & H3 & H4 & _).
  unfold log_invariant.
  change (features (send_segmentation s)) with (features (relearn s)).
  change (targets (send_segmentation s)) with (targets (relearn s)).
  change (history (send_segmentation s)) with (history (relearn s)).
  change (separate (send_segmentation s)) with (separate (relearn s)).
  rewrite H1, H2, H3, H4. auto.
Qed.

(** ** The lookup table *)

Lemma py_range_In (n f : Z) : In f (py_range n) <-> 0 <= f < n.
Proof.
  unfold py_range. rewrite in_map_iff. split.
  - intros [i [<- Hi]]. apply in_seq in Hi. lia.
  - intros Hf. exists (Z.to_nat f). split; [lia|]. apply in_seq. lia.
Qed.

Lemma py_range_NoDup (n : Z) : NoDup (py_range n).
Proof.
  unfold py_range. apply Finite.Injective_map_NoDup; [|apply seq_NoDup].
  intros i j Hij. now apply Nat2Z.inj.
Qed.

Lemma py_range_length (n : nat) : length (py_range (Z.of_nat n)) = n.
Proof.
  unfold py_range. now rewrite length_map, length_seq, Nat2Z.id.
Qed.

(** the fragments of the table are the indices of its segments: the range
    starts at 0 whatever the labels of the image are *)
Lemma lut_fragments_not_labels (s : State) (src : list Z) (n : nat) :
  src = py_range (Z.of_nat n) ->
  labels s <> [] -> ~ In 0 (labels s) ->
  ~ Permutation src (fragment_ids s).
Proof.
  intros -> Hne H0 Hperm. unfold fragment_ids, py_set in Hperm.
  destruct n as [|n].
  - apply Permutation_nil in Hperm.
    destruct (labels s) as [|x l]; [congruence|].
    assert (Hx : In x (nodup Z.eq_dec (x :: l))) by (apply nodup_In; simpl; auto).
    rewrite Hperm in Hx. exact Hx.
  - apply H0. apply (nodup_In Z.eq_dec).
    eapply Permutation_in; [eassumption|]. apply py_range_In. lia.
Qed.

(** C2, as the code has it: the table that [send_segmentation] sends lists
    as fragments the indices [0, 1, ..., n - 1] of its segments, [n] being
    the length of the map of the rebuilt graph: each index once, as many
    fragments as segments, whatever the original fragment ids are. *)
Theorem send_segmentation_fragments (s : State) :
  exists src dst,
    sent (send_segmentation s) = sent s ++ [lut_message src dst]
    /\ dst = get_map (rag (send_segmentation s)) half
    /\ src = py_range (Z.of_nat (length dst))
    /\ NoDup src /\ length src = length dst
    /\ forall f, In f src <-> 0 <= f < Z.of_nat (length dst).
Proof.
  set (g := agglomerate (rag (relearn s)) half).
  exists (py_range (Z.of_nat (length (get_map g half)))), (get_map g half).
  destruct (relearn_frame s) as (_ & _ & _ & _ & _ & _ & Hsent & _).
  split.
  { change (sent (send_segmentation s))
      with (sent (relearn s) ++
            [lut_message (py_range (Z.of_nat (length (get_map g half))))
               (get_map g half)]).
    now rewrite Hsent. }
  split; [reflexivity|]. split; [reflexivity|].
  split; [apply py_range_NoDup|]. split; [apply py_range_length|].
  intros f; apply py_range_In.
Qed.

(** ** The loop *)

Lemma listen_cons (m : message) (rest : list message) (s : State) :
  listen (m :: rest) s
  = match handler m s with
    | Some r => after_handler (listen rest) rest r
    | None =>
        if String.eqb (msg_type m) "stop" then (s, Stopped, rest)
        else (print s (NotRecognized (msg_type m)), Stopped, rest)
    end.
Proof.
  unfold handler. cbn [listen].
  destruct (String.eqb (msg_type m) "merge");
    [destruct (p_segments (msg_data m)); reflexivity|].
  destruct (String.eqb (msg_type m) "separate");
    [destruct (p_segments (msg_data m)); reflexivity|].
  destruct (String.eqb (msg_type m) "request"); [|reflexivity].
  destruct (p_what (msg_data m)) as [what|]; [|reflexivity].
  destruct (String.eqb what "fragment-segment-lut"); reflexivity.
Qed.

Lemma handler_self_loop (m : message) (s : State) :
  Protocol.self_loop (msg_type m) = true <-> handler m s <> None.
Proof.
  unfold Protocol.self_loop, handler.
  destruct (String.eqb (msg_type m) "merge");
    [destruct (p_segments (msg_data m)); simpl; split; congruence|].
  destruct (String.eqb (msg_type m) "separate");
    [destruct (p_segments (msg_data m)); simpl; split; congruence|].
  destruct (String.eqb (msg_type m) "request"); simpl; [|split; congruence].
  destruct (p_what (msg_data m)) as [what|]; [|split; congruence].
  destruct (String.eqb what "fragment-segment-lut"); split; congruence.
Qed.

Lemma protocol_stopped (inbox : list message) :
  Protocol.run Protocol.STOPPED inbox = (Protocol.STOPPED, inbox).
Proof. destruct inbox; reflexivity. Qed.

(** one turn of the loop on what [recv_json] returns *)
Lemma listen_raw_cons (m : received) (rest : list received) (s : State) :
  listen_raw (m :: rest) s
  = match r_type m, r_data m with
    | Some command, Some data =>
        match handler (mkMessage command data) s with
        | Some (s1, Ok _) => listen_raw rest s1
        | Some (s1, Raise e) => (s1, Crashed e, rest)
        | None =>
            if String.eqb command "stop" then (s, Stopped, rest)
            else (print s (NotRecognized command), Stopped, rest)
        end
    | _, _ => (s, Crashed KeyError, rest)
    end.
Proof.
  unfold handler. cbn [listen_raw msg_type msg_data].
  destruct (r_type m) as [command|]; [|reflexivity].
  destruct (r_data m) as [data|]; [|reflexivity].
  destruct (String.eqb command "merge").
  { destruct (p_segments data) as [segments|]; [|reflexivity].
    destruct (learn_merge segments s) as [s1 [[]|e]]; reflexivity. }
  destruct (String.eqb command "separate").
  { destruct (p_segments data) as [segments|]; [|reflexivity].
    destruct (learn_separation segments s) as [s1 [[]|e]]; reflexivity. }
  destruct (String.eqb command "request"); [|reflexivity].
  destruct (p_what data) as [what|]; [|reflexivity].
  destruct (String.eqb what "fragment-segment-lut"); reflexivity.
Qed.

(** on messages that carry both keys the two loops agree *)
Lemma listen_raw_envelope (inbox : list message) :
  forall s : State,
    listen_raw (map envelope inbox) s
    = let '(s', st, unread) := listen inbox s in
      (s', st, map envelope unread).
Proof.
  induction inbox as [|m rest IH]; intros s; [reflexivity|].
  cbn [map]. rewrite listen_raw_cons, listen_cons.
  cbn [envelope r_type r_data].
  replace (mkMessage (msg_type m) (msg_data m)) with m by (now destruct m).
  destruct (handler m s) as [[s1 [[]|e]]|]; cbn [after_handler].
  - apply IH.
  - reflexivity.
  - destruct (String.eqb (msg_type m) "stop"); reflexivity.
Qed.

(** a run of the loop against the protocol machine *)
Lemma listen_run (inbox : list message) :
  forall s : State,
    let '(s', st, unread) := listen inbox s in
    match st with
    | Listening =>
        Protocol.run Protocol.LISTENING inbox = (Protocol.LISTENING, [])
        /\ unread = []
    | Stopped =>
        Protocol.run Protocol.LISTENING inbox = (Protocol.STOPPED, unread)
        /\ exists processed,
             inbox = processed ++ unread
             /\ forall more,
                  listen (processed ++ more) s = (s', Stopped, more)
    | Crashed e =>
        exists processed m s_m,
          inbox = processed ++ m :: unread
          /\ Protocol.self_loop (msg_type m) = true
          /\ Protocol.run Protocol.LISTENING processed
              = (Protocol.LISTENING, [])
          /\ listen processed s = (s_m, Listening, [])
          /\ handler m s_m = Some (s', Raise e)
    end.
Proof.
  induction inbox as [|m rest IH]; intros s.
  - simpl. auto.
  - rewrite listen_cons.
    pose proof (handler_self_loop m s) as Hloop.
    destruct (handler m s) as [[s1 [[]|e]]|] eqn:Hh.
    + assert (Hsl : Protocol.self_loop (msg_type m) = true)
        by (apply Hloop; congruence).
      cbn [after_handler]. specialize (IH s1).
      destruct (listen rest s1) as [[s' st] unread] eqn:Hrest.
      destruct st as [| |e].
      * destruct IH as [Hrun ->]. split; [|reflexivity].
        cbn [Protocol.run Protocol.step]. rewrite Hsl. exact Hrun.
      * destruct IH as [Hrun [processed [-> Hmore]]]. split.
        -- cbn [Protocol.run Protocol.step]. rewrite Hsl. exact Hrun.
        -- exists (m :: processed). split; [reflexivity|].
           intros more. rewrite <- app_comm_cons, listen_cons, Hh.
           cbn [after_handler]. apply Hmore.
      * destruct IH as (processed & m' & s_m & -> & Hm' & Hrun & Hproc & Hraise).
        exists (m :: processed), m', s_m.
        split; [reflexivity|]. split; [assumption|].
        split; [cbn [Protocol.run Protocol.step]; rewrite Hsl; exact Hrun|].
        split; [|assumption].
        rewrite listen_cons, Hh. cbn [after_handler]. exact Hproc.
    + cbn [after_handler]. exists [], m, s.
      split; [reflexivity|]. split; [apply Hloop; congruence|]. auto.
    + assert (Hsl : Protocol.self_loop (msg_type m) = false).
      { destruct (Protocol.self_loop (msg_type m)); [|reflexivity].
        exfalso. now apply Hloop. }
      assert (Hrun : Protocol.run Protocol.LISTENING (m :: rest)
                     = (Protocol.STOPPED, rest)).
      { cbn [Protocol.run Protocol.step]. rewrite Hsl. apply protocol_stopped. }
      destruct (String.eqb (msg_type m) "stop") eqn:Hstop.
      * split; [exact Hrun|]. exists [m]. split; [reflexivity|].
        intros more. simpl app. rewrite listen_cons, Hh, Hstop. reflexivity.
      * split; [exact Hrun|]. exists [m]. split; [reflexivity|].
        intros more. simpl app. rewrite listen_cons, Hh, Hstop. reflexivity.
Qed.

(** C8, as the code has it.  One message: when the handler of a [merge],
    [separate] or [request] message returns normally, the loop stays
    listening and goes on with the next message in the state the handler
    left; a [stop] message, and a message of any other type after the
    diagnostic, make the loop return with the rest unread.  A whole run:
    it follows the protocol machine, stopping at the first [stop] or
    unrecognised command, what comes after being never processed, unless
    the handler of some [merge], [separate] or [request] message raises;
    the run then ends at that message, in the state that handler left,
    every message before it having been processed.  The messages of
    [listen] carry both keys, [type] and [data]; on them the loop on what
    [recv_json] returns does the same, and a message that lacks one of
    the two keys ends the run with [KeyError], whatever its command. *)
Theorem listen_follows_protocol (inbox : list message) :
  forall s : State,
    (let '(s', st, unread) := listen inbox s in
     match st with
     | Listening =>
         Protocol.run Protocol.LISTENING inbox = (Protocol.LISTENING, [])
         /\ unread = []
     | Stopped =>
         Protocol.run Protocol.LISTENING inbox = (Protocol.STOPPED, unread)
         /\ exists processed,
              inbox = processed ++ unread
              /\ forall more,
                   listen (processed ++ more) s = (s', Stopped, more)
     | Crashed e =>
         exists processed m s_m,
           inbox = processed ++ m :: unread
           /\ Protocol.self_loop (msg_type m) = true
           /\ Protocol.run Protocol.LISTENING processed
               = (Protocol.LISTENING, [])
           /\ listen processed s = (s_m, Listening, [])
           /\ handler m s_m = Some (s', Raise e)
     end)
    /\ (forall m rest s1,
          handler m s = Some (s1, Ok tt) ->
          Protocol.self_loop (msg_type m) = true
          /\ listen (m :: rest) s = listen rest s1)
    /\ (forall segments rest s1,
          learn_merge segments s = (s1, Ok tt) ->
          listen (merge_message segments :: rest) s = listen rest s1)
    /\ (forall fragments rest s1,
          learn_separation fragments s = (s1, Ok tt) ->
          listen (separate_message fragments :: rest) s = listen rest s1)
    /\ (forall rest,
          listen (request_message :: rest) s = listen rest (send_segmentation s))
    /\ (forall m rest,
          msg_type m = "stop"%string ->
          listen (m :: rest) s = (s, Stopped, rest))
    /\ (forall m rest,
          Protocol.self_loop (msg_type m) = false ->
          msg_type m <> "stop"%string ->
          listen (m :: rest) s
          = (print s (NotRecognized (msg_type m)), Stopped, rest))
    /\ listen_raw (map envelope inbox) s
       = (let '(s', st, unread) := listen inbox s in
          (s', st, map envelope unread))
    /\ (forall m rest,
          r_type m = None \/ r_data m = None ->
          listen_raw (m :: rest) s = (s, Crashed KeyError, rest)).
Proof.
  intros s. split; [apply listen_run|].
  split.
  { intros m rest s1 Hh. split.
    - apply (handler_self_loop m s). congruence.
    - rewrite listen_cons, Hh. reflexivity. }
  split.
  { intros segments rest s1 Hm. rewrite listen_merge, Hm. reflexivity. }
  split.
  { intros fragments rest s1 Hm. rewrite listen_separate, Hm. reflexivity. }
  split; [reflexivity|].
  split.
  { intros m rest Hstop. rewrite listen_cons.
    assert (Hh : handler m s = None)
      by (unfold handler; rewrite Hstop; reflexivity).
    rewrite Hh, Hstop. reflexivity. }
  split.
  { intros m rest Hsl Hstop. rewrite listen_cons.
    assert (Hh : handler m s = None).
    { destruct (handler m s) eqn:Hh; [|reflexivity].
      assert (Protocol.self_loop (msg_type m) = true)
        by (apply (handler_self_loop m s); congruence).
      congruence. }
    rewrite Hh. apply String.eqb_neq in Hstop. rewrite Hstop. reflexivity. }
  split; [apply listen_raw_envelope|].
  intros m rest Hmiss. rewrite listen_raw_cons.
  destruct Hmiss as [-> | ->]; [reflexivity|].
  destruct (r_type m); reflexivity.
Qed.

(** the log invariant holds in every state the loop reaches *)
Lemma log_invariant_listen (inbox : list message) :
  forall s : State,
    log_invariant s -> log_invariant (fst (fst (listen inbox s))).
Proof.
  induction inbox as [|m rest IH]; intros s Hs; [exact Hs|].
  rewrite listen_cons. unfold handler.
  destruct (String.eqb (msg_type m) "merge").
  { destruct (p_segments (msg_data m)) as [segments|]; [|exact Hs].
    destruct (learn_merge_outcome segments s) as [j [Happ _]].
    apply merge_appended_invariant in Happ; [|exact Hs].
    destruct (learn_merge segments s) as [s1 [[]|e]]; simpl in *; auto. }
  destruct (String.eqb (msg_type m) "separate").
  { destruct (p_segments (msg_data m)) as [fragments|]; [|exact Hs].
    pose proof (learn_separation_invariant fragments s Hs) as Hsep.
    destruct (learn_separation fragments s) as [s1 [[]|e]]; simpl in *; auto. }
  destruct (String.eqb (msg_type m) "request").
  { destruct (p_what (msg_data m)) as [what|]; [|exact Hs].
    destruct (String.eqb what "fragment-segment-lut"); simpl; auto.
    apply IH. now apply send_segmentation_invariant. }
  destruct (String.eqb (msg_type m) "stop"); exact Hs.
Qed.

(** ** Selections that are not connected *)





End SessionFacts.

(** ** The simulator *)

Section SimulatorFacts.
Variable ctable_col : Z -> list Z.
Variable base_graph : Z -> option (list Z).

Lemma zip_shortest {A B : Type} (l1 : list A) :
  forall l2 : list B, map snd (combine l1 l2) = firstn (length l1) l2.
Proof.
  induction l1 as [|a l1 IH]; intros [|b l2]; simpl; auto.
  now rewrite IH.
Qed.

Lemma no_merge_among_separations (f : Z) (l : list Z) :
  filter is_merge (map (fun n => separate_message [f; n]) l) = [].
Proof. induction l as [|n l IH]; simpl; auto. Qed.

Lemma send_separations_merges (components : list Z) (fragments : list Z) :
  forall wire,
    filter is_merge (fst (send_separations base_graph components fragments wire))
    = filter is_merge wire.
Proof.
  induction fragments as [|f rest IH]; simpl; intros wire; [reflexivity|].
  destruct (base_graph f) as [neighbors|]; [|reflexivity].
  rewrite IH, filter_app, no_merge_among_separations. apply app_nil_r.
Qed.

Lemma send_separations_ok (components : list Z) (fragments : list Z) :
  (forall f, In f fragments -> base_graph f <> None) ->
  forall wire, snd (send_separations base_graph components fragments wire) = Ok tt.
Proof.
  induction fragments as [|f rest IH]; simpl; intros Hg wire; [reflexivity|].
  destruct (base_graph f) as [neighbors|] eqn:Hf.
  - apply IH. intros; apply Hg; auto.
  - exfalso. now apply (Hg f); auto.
Qed.

Lemma operations_merges (todo : list (Z * Z)) :
  (forall label f, In label (map snd todo) -> In f (ctable_col label) ->
                   base_graph f <> None) ->
  forall wire,
    snd (operations ctable_col base_graph todo wire) = Ok tt
    /\ filter is_merge (fst (operations ctable_col base_graph todo wire))
       = filter is_merge wire
         ++ map (fun label => merge_message (ctable_col label)) (map snd todo).
Proof.
  induction todo as [|[i label] rest IH]; simpl; intros Hg wire.
  - rewrite app_nil_r. auto.
  - pose proof (send_separations_ok (ctable_col label) (ctable_col label)
                  (fun f Hf => Hg label f (or_introl eq_refl) Hf)
                  (wire ++ [merge_message (ctable_col label)])) as Hok.
    pose proof (send_separations_merges (ctable_col label) (ctable_col label)
                  (wire ++ [merge_message (ctable_col label)])) as Hm.
    destruct (send_separations base_graph (ctable_col label) (ctable_col label)
                (wire ++ [merge_message (ctable_col label)])) as [wire' r].
    simpl in Hok, Hm. subst r.
    destruct (IH (fun l f Hl Hf => Hg l f (or_intror Hl) Hf) wire') as [Hr Hf].
    split; [assumption|].
    rewrite Hf, Hm, filter_app; simpl. now rewrite <- app_assoc.
Qed.

(** C9: with more operations asked for than there are ground-truth labels,
    [proofread] sends one merge command per label, in the order of the
    labels, that is [min(num_operations, number of labels)] of them, and
    returns the table it received, no exception raised. *)
Theorem proofread_zip_shortest (true_labels : list Z) (num_operations : Z)
    (stop_when_finished : bool) (src dst : list Z) :
  Z.of_nat (length true_labels) < num_operations ->
  (forall label f, In label true_labels -> In f (ctable_col label) ->
                   base_graph f <> None) ->
  exists wire,
    proofread ctable_col base_graph true_labels num_operations
      stop_when_finished (lut_message src dst) = (wire, Ok (src, dst))
    /\ filter is_merge wire
       = map (fun label => merge_message (ctable_col label)) true_labels
    /\ Z.of_nat (length (filter is_merge wire))
       = Z.min num_operations (Z.of_nat (length true_labels)).
Proof.
  intros Hn Hg.
  assert (Hzip : map snd (combine (py_range num_operations) true_labels)
                 = true_labels).
  { rewrite zip_shortest. apply firstn_all2.
    unfold py_range. rewrite length_map, length_seq. lia. }
  destruct (operations_merges (combine (py_range num_operations) true_labels))
    with (wire := @nil message) as [Hr Hf].
  { rewrite Hzip. exact Hg. }
  rewrite Hzip in Hf. simpl in Hf.
  unfold proofread.
  destruct (operations ctable_col base_graph
              (combine (py_range num_operations) true_labels) [])
    as [wire r].
  simpl in Hr, Hf. subst r. cbn [lut_message msg_data p_fragments p_segments].
  eexists; split; [reflexivity|].
  assert (Hw : filter is_merge
                 (if stop_when_finished
                  then (wire ++ [request_message]) ++ [stop_message]
                  else wire ++ [request_message])
               = map (fun label => merge_message (ctable_col label)) true_labels).
  { destruct stop_when_finished; rewrite !filter_app; simpl;
      rewrite ?app_nil_r; exact Hf. }
  split; [exact Hw|].
  rewrite Hw, length_map. lia.
Qed.

End SimulatorFacts.

(** ** The small graph keeps the contract *)

Lemma toy_top_ge (l : list Z) (x : Z) : In x l -> x <= Toy.top l.
Proof.
  induction l as [|a l IH]; simpl; [tauto|].
  intros [->|Hx]; [lia | specialize (IH Hx); lia].
Qed.

Lemma toy_ancestor_bound (ms : list (Z * Z * Z)) (B : Z) :
  (forall m, In m ms -> snd m <= B) ->
  forall x, x <= B -> fold_left Toy.ancestor_step ms x <= B.
Proof.
  induction ms as [|[[a b] n] ms IH]; simpl; intros Hb x Hx; [assumption|].
  apply IH; [intros m Hm; apply Hb; auto|].
  destruct ((x =? a) || (x =? b)); [|assumption].
  apply (Hb (a, b, n)); auto.
Qed.

Lemma toy_nodes_In (g : Toy.rag) (x : Z) :
  In x (Toy.nodes g) <-> exists f, In f (Toy.base_nodes g) /\ Toy.root g f = x.
Proof.
  unfold Toy.nodes. rewrite nodup_In, in_map_iff.
  split; intros [f [? ?]]; exists f; auto.
Qed.

Lemma toy_nodes_bound (g : Toy.rag) (x : Z) :
  In x (Toy.nodes g) -> x <= Toy.top (Toy.ids g).
Proof.
  intros Hx. apply toy_nodes_In in Hx as [f [Hf <-]].
  apply toy_ancestor_bound.
  - intros [[a b] n] Hm. apply toy_top_ge. unfold Toy.ids.
    right. apply in_app_iff; right. apply in_flat_map.
    exists (a, b, n); simpl; auto.
  - apply toy_top_ge. unfold Toy.ids. right. apply in_app_iff; auto.
Qed.

Lemma toy_neighbors_In (g : Toy.rag) (v y : Z) :
  In y (Toy.neighbors g v) <->
  exists e, In e (Toy.base_edges g)
    /\ Toy.root g (fst e) <> Toy.root g (snd e)
    /\ ((Toy.root g (fst e) = v /\ Toy.root g (snd e) = y)
        \/ (Toy.root g (snd e) = v /\ Toy.root g (fst e) = y)).
Proof.
  unfold Toy.neighbors. rewrite nodup_In, in_flat_map.
  split; intros [e [He H]]; exists e; (split; [assumption|]);
    unfold Toy.edge_at in *;
    destruct (Z.eqb_spec (Toy.root g (fst e)) (Toy.root g (snd e)));
    destruct (Z.eqb_spec (Toy.root g (fst e)) v);
    destruct (Z.eqb_spec (Toy.root g (snd e)) v);
    simpl in *; intuition (subst; try congruence; auto).
Qed.

Lemma toy_root_merge (g : Toy.rag) (a b x : Z) :
  Toy.root (fst (Toy.merge g a b)) x
  = Toy.ancestor_step (Toy.root g x) (a, b, snd (Toy.merge g a b)).
Proof.
  unfold Toy.root, Toy.merge; simpl. now rewrite fold_left_app.
Qed.

Lemma toy_merge_fresh (g : Toy.rag) (a b : Z) :
  a < snd (Toy.merge g a b) /\ b < snd (Toy.merge g a b)
  /\ forall x, In x (Toy.nodes g) -> x < snd (Toy.merge g a b).
Proof.
  unfold Toy.merge; cbn [snd Toy.top fold_right].
  fold (Toy.top (Toy.ids g)).
  split; [lia|]. split; [lia|].
  intros x Hx. apply toy_nodes_bound in Hx. lia.
Qed.

Lemma toy_step_other (x a b n : Z) :
  x <> a -> x <> b -> Toy.ancestor_step x (a, b, n) = x.
Proof.
  intros Ha Hb. unfold Toy.ancestor_step.
  destruct (Z.eqb_spec x a), (Z.eqb_spec x b); simpl; congruence.
Qed.

Lemma toy_step_left (a b n : Z) : Toy.ancestor_step a (a, b, n) = n.
Proof. unfold Toy.ancestor_step. now rewrite Z.eqb_refl. Qed.

Lemma toy_step_right (a b n : Z) : Toy.ancestor_step b (a, b, n) = n.
Proof. unfold Toy.ancestor_step. now rewrite Z.eqb_refl, orb_true_r. Qed.

Lemma toy_contract : Contract (Toy.collab true).
Proof.
  constructor; cbn [merge_nodes rag_nodes feature_manager Toy.collab has_edge
                    rag_neighbors].
  - intros g a b g' n Hm. right; right. intros Hn.
    pose proof (toy_merge_fresh g a b) as (_ & _ & Hf).
    rewrite Hm in Hf; simpl in Hf. specialize (Hf n Hn). lia.
  - intros g a b g' n x Hm Hx Ha Hb.
    apply toy_nodes_In in Hx as [f [Hf Hr]]. apply toy_nodes_In.
    exists f. split; [replace g' with (fst (Toy.merge g a b)) by now rewrite Hm|].
    + exact Hf.
    + replace g' with (fst (Toy.merge g a b)) by now rewrite Hm.
      rewrite toy_root_merge, Hr. now apply toy_step_other.
  - intros g a b g' n x Hm Hx Ha Hb Hedge.
    pose proof (toy_merge_fresh g a b) as (_ & _ & Hf).
    specialize (Hf x Hx).
    replace g' with (fst (Toy.merge g a b)) by now rewrite Hm.
    replace n with (snd (Toy.merge g a b)) in * by now rewrite Hm.
    apply toy_neighbors_In.
    destruct Hedge as [He|He]; apply toy_neighbors_In in He
      as [e [He [Hne Hc]]]; exists e; (split; [exact He|]);
      rewrite !toy_root_merge;
      destruct Hc as [[H1 H2]|[H1 H2]]; rewrite H1, H2;
      rewrite ?toy_step_left, ?toy_step_right, (toy_step_other x) by assumption;
      (split; [lia | tauto]).
  - intros g a b g' n x y Hm Hx Hxa Hxb Hy Hya Hyb Hedge.
    replace g' with (fst (Toy.merge g a b)) by now rewrite Hm.
    apply toy_neighbors_In. apply toy_neighbors_In in Hedge
      as [e [He [Hne Hc]]]. exists e. split; [exact He|].
    rewrite !toy_root_merge.
    destruct Hc as [[H1 H2]|[H1 H2]]; rewrite H1, H2 in *;
      rewrite (toy_step_other x), (toy_step_other y) by assumption; tauto.
  - intros g a b Hedge. unfold Toy.extract.
    replace (mem b (Toy.neighbors g a)) with true
      by (symmetry; now apply mem_In).
    discriminate.
Qed.

(** ** The session on the row of four fragments *)

(** the spec's scenario; the fresh node ids are 6 and 7 *)
Example toy_end_to_end :
  let s := fst (fst (listen (C := Toy.collab true)
                       [merge_message [1; 2]; separate_message [2; 3];
                        merge_message [3; 4]; request_message; stop_message]
                       (Toy.session true))) in
  history s = [(1, 2); (3, 4)] /\ separate s = [(2, 3)]
  /\ targets s = [MERGE_LABEL; SEPAR_LABEL; MERGE_LABEL]
  /\ sent s = [lut_message [0; 1; 2; 3; 4] [0; 6; 6; 7; 7]].
Proof. vm_compute. repeat split. Qed.

Lemma toy_row_live (strict : bool) (x : Z) :
  In x [1; 2; 3; 4] ->
  In x (rag_nodes (Collab := Toy.collab strict) (rag (Toy.session strict))).
Proof. intros Hx. destruct strict; exact Hx. Qed.


Lemma toy_1_2_3_connected :
  connected (sub_adj (C := Toy.collab true) (rag (Toy.session true)) [1; 2; 3])
    [1; 2; 3].
Proof.
  assert (Hub : forall u, In u [1; 2; 3] ->
            clos_refl_trans Z
              (fun a b => In b (sub_adj (C := Toy.collab true)
                                  (rag (Toy.session true)) [1; 2; 3] a)) u 2
            /\ clos_refl_trans Z
              (fun a b => In b (sub_adj (C := Toy.collab true)
                                  (rag (Toy.session true)) [1; 2; 3] a)) 2 u).
  { intros u [<-|[<-|[<-|[]]]]; split;
      try apply rt_refl; apply rt_step; vm_compute; auto. }
  intros u v Hu Hv. apply rt_trans with (y := 2); [apply Hub | apply Hub]; assumption.
Qed.



(** C2, counterexample: after the commands of the spec's scenario the
    fragments of the table are 0, 1, 2, 3, 4 while the fragments of the
    image are 1, 2, 3, 4. *)
Lemma lut_fragments_start_at_zero :
  let s := fst (fst (listen (C := Toy.collab true)
                       [merge_message [1; 2]; separate_message [2; 3];
                        merge_message [3; 4]] (Toy.session true))) in
  exists src dst,
    sent (send_segmentation (C := Toy.collab true) s) = [lut_message src dst]
    /\ fragment_ids s = [1; 2; 3; 4]
    /\ src = [0; 1; 2; 3; 4]
    /\ ~ Permutation src (fragment_ids s).
Proof.
  exists [0; 1; 2; 3; 4], [0; 6; 6; 7; 7].
  split; [vm_compute; reflexivity|]. split; [vm_compute; reflexivity|].
  split; [reflexivity|].
  intros Hperm. apply Permutation_length in Hperm. vm_compute in Hperm.
  discriminate Hperm.
Qed.

Lemma learn_merge_connected_witness :
  exists s',
    learn_merge (C := Toy.collab true) [1; 2; 3] (Toy.session true) = (s', Ok tt)
    /\ merge_appended (3 - 1) (Toy.session true) s'.
Proof.
  apply (learn_merge_connected (C := Toy.collab true) (Contract0 := toy_contract)
           (Toy.session true) [1; 2; 3] 3).
  - intros x Hx. apply toy_row_live. vm_compute in Hx. simpl. tauto.
  - reflexivity.
  - lia.
  - exact toy_1_2_3_connected.
Defined.

(** C5, counterexample: after [merge {1,2}], [separate (1,2)],
    [merge {5,6}], [merge {4,5}] and a request on the row of six fragments,
    the replayed history has put the fragments 1, 2 and 4 under node 10.
    The command [separate (1,4)] splits node 10 into 4 and 8, which do not
    touch; the feature manager raises, the diagnostic is printed and the
    logs are as before, but the graph has changed: its nodes were 3, 10, 9
    and are 8, 3, 4, 9. *)
Lemma learn_separation_error_changes_graph :
  let inbox := [merge_message [1; 2]; separate_message [1; 2];
                merge_message [5; 6]; merge_message [4; 5]; request_message] in
  let s := fst (fst (listen (C := Toy.collab true) inbox (Toy.long_session true))) in
  let s' := fst (learn_separation (C := Toy.collab true) [1; 4] s) in
  snd (fst (listen (C := Toy.collab true) inbox (Toy.long_session true)))
  = Listening
  /\ snd (learn_separation (C := Toy.collab true) [1; 4] s) = Ok tt
  /\ console s' = console s ++ [FailedToSplit 4 8 1 4]
  /\ features s' = features s /\ targets s' = targets s
  /\ separate s' = separate s /\ history s' = history s
  /\ Toy.nodes (rag s) = [3; 10; 9]
  /\ Toy.nodes (rag s') = [8; 3; 4; 9]
  /\ rag s' <> rag s.
Proof.
  vm_compute. repeat split. discriminate.
Qed.

Lemma learn_separation_extraction_fails_witness :
  let inbox := [merge_message [1; 2]; separate_message [1; 2];
                merge_message [5; 6]; merge_message [4; 5]; request_message] in
  let s := fst (fst (listen (C := Toy.collab true) inbox (Toy.long_session true))) in
  let g := fst (separate_fragments (Collab := Toy.collab true) (rag s) 1 4) in
  let s' := print (set_rag s g) (FailedToSplit 4 8 1 4) in
  learn_separation (C := Toy.collab true) [1; 4] s = (s', Ok tt)
  /\ features s' = features s /\ targets s' = targets s
  /\ separate s' = separate s /\ history s' = history s
  /\ console s' = console s ++ [FailedToSplit 4 8 1 4]
  /\ sent s' = sent s /\ rag s' = g
  /\ forall rest,
       listen (C := Toy.collab true) (separate_message [1; 4] :: rest) s
       = listen (C := Toy.collab true) rest s'.
Proof.
  intros inbox s g.
  apply (learn_separation_extraction_fails (C := Toy.collab true) s 1 4 g 4 8).
  - vm_compute. discriminate.
  - vm_compute. discriminate.
  - vm_compute. reflexivity.
  - vm_compute. reflexivity.
Defined.

Lemma log_invariant_preserved_witness :
  (forall segments,
      log_invariant (fst (learn_merge (C := Toy.collab true) segments
                            (Toy.session true))))
  /\ (forall fragments,
         log_invariant (fst (learn_separation (C := Toy.collab true) fragments
                               (Toy.session true))))
  /\ log_invariant (relearn (C := Toy.collab true) (Toy.session true)).
Proof.
  apply (log_invariant_preserved (C := Toy.collab true) (Toy.session true)).
  repeat split.
Defined.

Lemma learn_separation_boundary_witness :
  learn_separation (C := Toy.collab true) [5; 1] (Toy.session true)
  = (Toy.session true, Ok tt)
  /\ forall rest,
       listen (C := Toy.collab true) (separate_message [5; 1] :: rest)
         (Toy.session true)
       = listen (C := Toy.collab true) rest (Toy.session true).
Proof.
  apply (learn_separation_boundary (C := Toy.collab true) (Toy.session true) 5 1).
  left. reflexivity.
Defined.

(** C8, counterexample: a merge command with no segments makes
    [next(ordered)] raise [StopIteration]; the loop ends there and the
    [stop] message behind it is never read, where the protocol machine
    loops on the merge and then stops on [stop]. *)
Lemma listen_leaves_on_empty_merge :
  let inbox := [merge_message []; stop_message] in
  listen (C := Toy.collab true) inbox (Toy.session true)
  = (Toy.session true, Crashed StopIteration, [stop_message])
  /\ Protocol.run Protocol.LISTENING inbox = (Protocol.STOPPED, []).
Proof. split; reflexivity. Qed.

Lemma proofread_zip_shortest_witness :
  let ctable_col := fun label => if label =? 1 then [1; 2] else [3; 4] in
  let base_graph := fun f =>
    if f =? 1 then Some [2] else if f =? 2 then Some [1; 3]
    else if f =? 3 then Some [2; 4] else if f =? 4 then Some [3] else None in
  exists wire,
    proofread ctable_col base_graph [1; 2] 10 true
      (lut_message [0; 1; 2; 3; 4] [0; 6; 6; 7; 7])
    = (wire, Ok ([0; 1; 2; 3; 4], [0; 6; 6; 7; 7]))
    /\ filter is_merge wire
       = map (fun label => merge_message (ctable_col label)) [1; 2]
    /\ Z.of_nat (length (filter is_merge wire))
       = Z.min 10 (Z.of_nat (length [1; 2])).
Proof.
  intros ctable_col base_graph.
  apply (proofread_zip_shortest ctable_col base_graph [1; 2] 10 true).
  - simpl. lia.
  - intros label f [<-|[<-|[]]] Hf; vm_compute in Hf;
      destruct Hf as [<-|[<-|[]]]; discriminate.
Defined.

Lemma learn_merge_same_ancestor_witness :
  let s := fst (learn_merge (C := Toy.collab true) [1; 2] (Toy.session true)) in
  learn_merge (C := Toy.collab true) [1; 2] s = (s, Ok tt).
Proof.
  intros s.
  apply (learn_merge_same_ancestor (C := Toy.collab true) s [1; 2] 6).
  - discriminate.
  - intros x [<-|[<-|[]]]; reflexivity.
  - vm_compute. auto.
Defined.

(** * More of the session *)

Section RunFacts.
Context {Rag Features Classifier Policy : Type}.
Context `{C : Collab Rag Features Classifier Policy}.

Local Abbreviation State := (Solver Rag Features Policy).

Lemma log_extends_refl (s : State) : log_extends s s.
Proof. repeat split; exists []; now rewrite app_nil_r. Qed.

Lemma log_extends_trans (s1 s2 s3 : State) :
  log_extends s1 s2 -> log_extends s2 s3 -> log_extends s1 s3.
Proof.
  intros ([a1 A1] & [a2 A2] & [a3 A3] & [a4 A4] & [a5 A5] & [a6 A6])
         ([b1 B1] & [b2 B2] & [b3 B3] & [b4 B4] & [b5 B5] & [b6 B6]).
  unfold log_extends.
  rewrite B1, B2, B3, B4, B5, B6, A1, A2, A3, A4, A5, A6, <- !app_assoc.
  repeat split; eexists; reflexivity.
Qed.

Lemma frozen_refl (s : State) : frozen s s.
Proof. repeat split. Qed.

Lemma frozen_trans (s1 s2 s3 : State) :
  frozen s1 s2 -> frozen s2 s3 -> frozen s1 s3.
Proof.
  intros (A1 & A2 & A3 & A4) (B1 & B2 & B3 & B4). unfold frozen.
  rewrite B1, B2, B3, B4. auto.
Qed.

Lemma merge_loop_frozen (ordered : list Z) :
  forall (s0 : Z) (s : State), frozen s (fst (merge_loop ordered s0 s)).
Proof.
  induction ordered as [|s1 rest IH]; simpl; intros s0 s; [apply frozen_refl|].
  destruct (feature_manager (rag s) s0 s1) as [fv|]; [|apply frozen_refl].
  simpl. destruct (merge_nodes (rag s) s0 s1) as [g n].
  eapply frozen_trans; [|apply IH]. repeat split.
Qed.

Lemma learn_merge_frozen (segments : list Z) (s : State) :
  frozen s (fst (learn_merge segments s)).
Proof.
  unfold learn_merge. destruct (merge_order (rag s) segments);
    [apply frozen_refl | apply merge_loop_frozen].
Qed.

Lemma merge_appended_extends (j : nat) (s s' : State) :
  merge_appended j s s' -> log_extends s s'.
Proof.
  intros (hs & fs & _ & _ & H1 & H2 & H3 & H4 & H5 & H6).
  unfold log_extends. rewrite H1, H2, H3, H4, H5, H6.
  repeat split; try (eexists; reflexivity); exists []; now rewrite app_nil_r.
Qed.

Lemma learn_separation_effect (fragments : list Z) (s : State) :
  frozen s (fst (learn_separation fragments s))
  /\ log_extends s (fst (learn_separation fragments s))
  /\ sent (fst (learn_separation fragments s)) = sent s
  /\ history (fst (learn_separation fragments s)) = history s
  /\ match snd (learn_separation fragments s) with
     | Ok _ => length fragments = 2%nat
     | Raise e => e = ValueError /\ length fragments <> 2%nat
                  /\ fst (learn_separation fragments s) = s
     end.
Proof.
  unfold learn_separation.
  destruct fragments as [|f0 [|f1 [|f2 l]]];
    try (simpl; repeat split;
         solve [apply log_extends_refl | discriminate | reflexivity]).
  destruct (mem (boundary_body (rag s)) [f0; f1]);
    [simpl; repeat split; apply log_extends_refl|].
  destruct (separate_fragments (rag s) f0 f1) as [g [s0 s1]]; simpl.
  destruct (feature_manager g s0 s1) as [fv|]; simpl;
    (split; [repeat split|]); (split; [|repeat split]);
    unfold log_extends; simpl;
    repeat split; try (eexists; reflexivity); exists []; now rewrite app_nil_r.
Qed.

Lemma relearn_frozen (s : State) : frozen s (relearn s).
Proof. rewrite relearn_as_steps. repeat split. Qed.

Lemma send_segmentation_effect (s : State) :
  frozen s (send_segmentation s)
  /\ log_extends s (send_segmentation s)
  /\ exists src dst, sent (send_segmentation s) = sent s ++ [lut_message src dst].
Proof.
  destruct (relearn_frame s) as (_ & _ & H1 & H2 & H3 & H4 & H5 & H6).
  destruct (relearn_frozen s) as (F1 & F2 & F3 & F4).
  split; [|split].
  - unfold frozen.
    change (labels (send_segmentation s)) with (labels (relearn s)).
    change (original_rag (send_segmentation s)) with (original_rag (relearn s)).
    change (relearn_threshold (send_segmentation s))
      with (relearn_threshold (relearn s)).
    change (relearn_trigger (send_segmentation s))
      with (relearn_trigger (relearn s)).
    auto.
  - unfold log_extends.
    change (history (send_segmentation s)) with (history (relearn s)).
    change (separate (send_segmentation s)) with (separate (relearn s)).
    change (features (send_segmentation s)) with (features (relearn s)).
    change (targets (send_segmentation s)) with (targets (relearn s)).
    change (console (send_segmentation s)) with (console (relearn s)).
    rewrite H1, H2, H3, H4, H6.
    repeat split; try (exists []; now rewrite app_nil_r).
    eexists. unfold send_segmentation; cbn [sent send_json set_rag].
    rewrite H5. reflexivity.
  - do 2 eexists. unfold send_segmentation; cbn [sent send_json set_rag].
    rewrite H5. reflexivity.
Qed.

Lemma learn_merge_stop_iff (segments : list Z) (s : State) :
  snd (learn_merge segments s) = Raise StopIteration
  <-> selection (rag s) segments = [].
Proof.
  pose proof (merge_order_permutation (rag s) segments) as Hperm.
  unfold learn_merge. split.
  - destruct (merge_order (rag s) segments) as [|s0 rest].
    + intros _. now apply Permutation_nil.
    + intros Hr. destruct (merge_loop_outcome rest s0 s) as [j [_ Hres]].
      rewrite Hr in Hres. destruct Hres; discriminate.
  - intros Hsel. rewrite Hsel in Hperm.
    apply Permutation_sym, Permutation_nil in Hperm. now rewrite Hperm.
Qed.

(** everything a handler can do to the state, and why it can raise *)
Lemma handler_effect (m : message) (s s1 : State) (r : result unit) :
  handler m s = Some (s1, r) ->
  frozen s s1 /\ log_extends s s1
  /\ (exists replies,
        sent s1 = sent s ++ replies
        /\ length replies = (if is_lut_request m then 1 else 0)%nat
        /\ Forall (fun reply => msg_type reply = "fragment-segment-lut"%string)
             replies)
  /\ match r with
     | Ok _ => True
     | Raise e => crash_cause e m s
     end.
Proof.
  unfold handler, is_lut_request.
  destruct (String.eqb (msg_type m) "merge") eqn:Hmerge.
  { apply String.eqb_eq in Hmerge. rewrite Hmerge. simpl.
    destruct (p_segments (msg_data m)) as [segments|] eqn:Hseg.
    - intros Hh. injection Hh as Hh.
      destruct (learn_merge_outcome segments s) as [j [Happ Hres]].
      pose proof (learn_merge_frozen segments s) as Hfr.
      pose proof (learn_merge_stop_iff segments s) as Hstop.
      rewrite Hh in *. simpl in *.
      split; [assumption|]. split; [eapply merge_appended_extends; eauto|].
      split.
      + exists []. destruct Happ as (? & ? & _ & _ & _ & _ & _ & _ & -> & _).
        rewrite app_nil_r. auto.
      + destruct r as [|e]; [exact I|].
        destruct Hres as [(-> & _)|(-> & _)]; simpl.
        * split; [assumption|]. exists segments. split; [assumption|].
          now apply Hstop.
        * right; right. split; [assumption|]. exists segments.
          rewrite Hh. auto.
    - intros Hh. injection Hh as <- <-. simpl.
      split; [apply frozen_refl|]. split; [apply log_extends_refl|].
      split; [exists []; rewrite app_nil_r; auto|]. left. auto. }
  destruct (String.eqb (msg_type m) "separate") eqn:Hsep.
  { apply String.eqb_eq in Hsep. rewrite Hsep. simpl.
    destruct (p_segments (msg_data m)) as [fragments|] eqn:Hseg.
    - intros Hh. injection Hh as Hh.
      destruct (learn_separation_effect fragments s) as (Hfr & Hext & Hsent & _ & Hres).
      rewrite Hh in *. simpl in *.
      split; [assumption|]. split; [assumption|]. split.
      + exists []. rewrite app_nil_r. auto.
      + destruct r as [|e]; [exact I|]. destruct Hres as (-> & Hlen & _).
        simpl. split; [assumption|]. exists fragments. auto.
    - intros Hh. injection Hh as <- <-. simpl.
      split; [apply frozen_refl|]. split; [apply log_extends_refl|].
      split; [exists []; rewrite app_nil_r; auto|]. left. auto. }
  destruct (String.eqb (msg_type m) "request") eqn:Hreq; [|discriminate].
  apply String.eqb_eq in Hreq. simpl.
  destruct (p_what (msg_data m)) as [what|] eqn:Hwhat.
  - destruct (String.eqb what "fragment-segment-lut").
    + intros Hh. injection Hh as <- <-.
      destruct (send_segmentation_effect s) as (Hfr & Hext & src & dst & Hsent).
      split; [assumption|]. split; [assumption|]. split; [|exact I].
      exists [lut_message src dst]. split; [assumption|].
      split; [reflexivity|]. constructor; [reflexivity | constructor].
    + intros Hh. injection Hh as <- <-.
      split; [apply frozen_refl|]. split; [apply log_extends_refl|].
      split; [exists []; rewrite app_nil_r; auto | exact I].
  - intros Hh. injection Hh as <- <-. simpl.
    split; [apply frozen_refl|]. split; [apply log_extends_refl|].
    split; [exists []; rewrite app_nil_r; auto|]. right; left. auto.
Qed.

Lemma handler_none_not_request (m : message) (s : State) :
  handler m s = None -> is_lut_request m = false.
Proof.
  unfold handler, is_lut_request.
  destruct (String.eqb (msg_type m) "merge");
    [destruct (p_segments (msg_data m)); discriminate|].
  destruct (String.eqb (msg_type m) "separate");
    [destruct (p_segments (msg_data m)); discriminate|].
  destruct (String.eqb (msg_type m) "request"); [|reflexivity].
  destruct (p_what (msg_data m)) as [what|]; [|discriminate].
  destruct (String.eqb what "fragment-segment-lut"); discriminate.
Qed.

(** X1: in every run of [listen], whatever the messages and however the
    run ends, the merge history, the separation history, the features, the
    targets, the messages sent and the console output are only ever
    appended to, and [labels], [original_rag], [relearn_threshold] and
    [relearn_trigger] keep the values the constructor gave them. *)
Theorem listen_append_only (inbox : list message) :
  forall s : State,
    log_extends s (fst (fst (listen inbox s)))
    /\ frozen s (fst (fst (listen inbox s))).
Proof.
  induction inbox as [|m rest IH]; intros s.
  - split; [apply log_extends_refl | apply frozen_refl].
  - rewrite listen_cons.
    destruct (handler m s) as [[s1 r]|] eqn:Hh.
    + destruct (handler_effect m s s1 r Hh) as (Hfr & Hext & _ & _).
      destruct r as [[]|e]; cbn [after_handler].
      * destruct (IH s1) as [He Hf].
        split; [eapply log_extends_trans | eapply frozen_trans]; eauto.
      * simpl. auto.
    + destruct (String.eqb (msg_type m) "stop"); simpl.
      * split; [apply log_extends_refl | apply frozen_refl].
      * split; [|repeat split]. unfold log_extends; simpl.
        repeat split; try (exists []; now rewrite app_nil_r).
        eexists; reflexivity.
Qed.

(** X2: the session answers lookup-table requests and nothing else: in
    every run the messages sent are one [fragment-segment-lut] message per
    processed request for the table, however many merge, separate or other
    messages were received. *)
Theorem listen_one_reply_per_request (inbox : list message) :
  forall s : State,
    exists processed replies,
      inbox = processed ++ snd (listen inbox s)
      /\ sent (fst (fst (listen inbox s))) = sent s ++ replies
      /\ length replies = length (filter is_lut_request processed)
      /\ Forall (fun reply => msg_type reply = "fragment-segment-lut"%string)
           replies.
Proof.
  induction inbox as [|m rest IH]; intros s.
  - exists [], []. simpl. rewrite app_nil_r. auto.
  - rewrite listen_cons.
    destruct (handler m s) as [[s1 r]|] eqn:Hh.
    + destruct (handler_effect m s s1 r Hh)
        as (_ & _ & (first & Hsent & Hlen & Hall) & _).
      destruct r as [[]|e]; cbn [after_handler].
      * destruct (IH s1) as (processed & replies & Hin & Hs & Hl & Ha).
        exists (m :: processed), (first ++ replies).
        split; [simpl; congruence|].
        split; [rewrite Hs, Hsent; symmetry; apply app_assoc|].
        split; [|apply Forall_app; auto].
        rewrite length_app, Hlen, Hl. simpl.
        destruct (is_lut_request m); reflexivity.
      * exists [m], first. simpl.
        split; [reflexivity|]. split; [assumption|]. split; [|assumption].
        rewrite Hlen. destruct (is_lut_request m); reflexivity.
    + pose proof (handler_none_not_request m s Hh) as Hno.
      exists [m], []. simpl. rewrite Hno.
      destruct (String.eqb (msg_type m) "stop"); simpl;
        rewrite app_nil_r; auto.
Qed.

(** on messages that carry both keys: the message at which a run is left
    by an exception, and why *)
Lemma listen_crash_at (inbox : list message) :
  forall (s s' : State) (e : exn) (unread : list message),
    listen inbox s = (s', Crashed e, unread) ->
    exists processed m s_m,
      inbox = processed ++ m :: unread
      /\ listen processed s = (s_m, Listening, [])
      /\ crash_cause e m s_m.
Proof.
  induction inbox as [|m rest IH]; intros s s' e unread; [discriminate|].
  rewrite listen_cons.
  destruct (handler m s) as [[s1 r]|] eqn:Hh.
  - destruct (handler_effect m s s1 r Hh) as (_ & _ & _ & Hcause).
    destruct r as [[]|e1]; cbn [after_handler].
    + intros Hrest. destruct (IH s1 s' e unread Hrest)
        as (processed & m' & s_m & -> & Hproc & Hc).
      exists (m :: processed), m', s_m. split; [reflexivity|].
      split; [|assumption].
      rewrite <- Hproc, listen_cons, Hh. reflexivity.
    + intros Heq. injection Heq as <- <- <-.
      exists [], m, s. auto.
  - destruct (String.eqb (msg_type m) "stop"); discriminate.
Qed.




(** X4: [learn_merge] raises [StopIteration] exactly when the command
    selects no live segment (an empty list of segments, or ids none of
    which resolves to a node of the graph), and then nothing has changed. *)
Theorem learn_merge_no_selection (segments : list Z) (s : State) :
  (snd (learn_merge segments s) = Raise StopIteration
   <-> selection (rag s) segments = [])
  /\ (snd (learn_merge segments s) = Raise StopIteration ->
      fst (learn_merge segments s) = s)
  /\ learn_merge [] s = (s, Raise StopIteration).
Proof.
  split; [apply learn_merge_stop_iff|]. split; [|reflexivity].
  intros Hr. apply learn_merge_stop_iff in Hr.
  pose proof (merge_order_permutation (rag s) segments) as Hperm.
  rewrite Hr in Hperm. apply Permutation_sym, Permutation_nil in Hperm.
  unfold learn_merge. now rewrite Hperm.
Qed.

Lemma relearn_depends (s1 s2 : State) :
  features s1 = features s2 -> targets s1 = targets s2 ->
  history s1 = history s2 -> separate s1 = separate s2 ->
  original_rag s1 = original_rag s2 ->
  rag (relearn s1) = rag (relearn s2)
  /\ policy (relearn s1) = policy (relearn s2).
Proof.
  intros Hf Ht Hh Hs Ho. rewrite !relearn_as_steps.
  unfold relearn_steps, replay_history, tag_separations, reset_graph,
    install_policy, train.
  cbn [policy set_policy set_rag separate rag history original_rag].
  rewrite Hf, Ht, Hh, Hs, Ho. auto.
Qed.

(** X5: the table is rebuilt from the original graph and the log alone:
    whatever the live graph is, two requests in a row, with no correction
    between them, are answered by the same message and leave the same
    graph. *)
Theorem send_segmentation_twice (s : State) :
  exists reply,
    sent (send_segmentation s) = sent s ++ [reply]
    /\ sent (send_segmentation (send_segmentation s)) = sent s ++ [reply; reply]
    /\ rag (send_segmentation (send_segmentation s)) = rag (send_segmentation s)
    /\ forall g, sent (send_segmentation (set_rag s g)) = sent s ++ [reply].
Proof.
  destruct (relearn_frame s) as (_ & Ho & H1 & H2 & H3 & H4 & H5 & _).
  assert (Hdep : forall s2 : State,
            features s2 = features s -> targets s2 = targets s ->
            history s2 = history s -> separate s2 = separate s ->
            original_rag s2 = original_rag s ->
            rag (send_segmentation s2) = rag (send_segmentation s)
            /\ sent (send_segmentation s2)
               = sent s2 ++ [lut_message
                   (py_range (Z.of_nat (length
                      (get_map (agglomerate (rag (relearn s)) half) half))))
                   (get_map (agglomerate (rag (relearn s)) half) half)]).
  { intros s2 Hf Ht Hh Hs Horig.
    destruct (relearn_depends s2 s Hf Ht Hh Hs Horig) as [Hrag _].
    destruct (relearn_frame s2) as (_ & _ & _ & _ & _ & _ & Hsent & _).
    unfold send_segmentation; cbn [sent send_json set_rag rag].
    rewrite Hrag, Hsent. auto. }
  eexists. split; [|split; [|split]].
  - apply (Hdep s); reflexivity.
  - destruct (Hdep (send_segmentation s)) as [_ Hs2].
    + change (features (send_segmentation s)) with (features (relearn s)); auto.
    + change (targets (send_segmentation s)) with (targets (relearn s)); auto.
    + change (history (send_segmentation s)) with (history (relearn s)); auto.
    + change (separate (send_segmentation s)) with (separate (relearn s)); auto.
    + change (original_rag (send_segmentation s))
        with (original_rag (relearn s)); auto.
    + rewrite Hs2. destruct (Hdep s) as [_ ->]; try reflexivity.
      now rewrite <- app_assoc.
  - apply (Hdep (send_segmentation s)).
    + change (features (send_segmentation s)) with (features (relearn s)); auto.
    + change (targets (send_segmentation s)) with (targets (relearn s)); auto.
    + change (history (send_segmentation s)) with (history (relearn s)); auto.
    + change (separate (send_segmentation s)) with (separate (relearn s)); auto.
    + change (original_rag (send_segmentation s))
        with (original_rag (relearn s)); auto.
  - intros g. destruct (Hdep (set_rag s g)) as [_ Hs2]; try reflexivity.
    exact Hs2.
Qed.

(** the pairs [merge_loop] appends: their second components are the
    segments it was given, in order, and the first pair starts at [s0] *)
Lemma merge_loop_history (ordered : list Z) :
  forall (s0 : Z) (s : State),
    exists hs,
      history (fst (merge_loop ordered s0 s)) = history s ++ hs
      /\ map snd hs = firstn (length hs) ordered
      /\ (hs = [] \/ hd_error (map fst hs) = Some s0)
      /\ (snd (merge_loop ordered s0 s) = Ok tt -> map snd hs = ordered).
Proof.
  induction ordered as [|s1 rest IH]; simpl; intros s0 s.
  - exists []. rewrite app_nil_r. auto.
  - destruct (feature_manager (rag s) s0 s1) as [fv|]; simpl.
    + destruct (merge_nodes (rag s) s0 s1) as [g n].
      match goal with |- context [merge_loop rest n ?t] =>
        destruct (IH n t) as (hs & Hh & Hsnd & _ & Hok) end.
      exists ((s0, s1) :: hs). rewrite Hh. simpl.
      rewrite <- app_assoc. simpl. rewrite Hsnd at 1.
      repeat split; auto. intros Hr. now rewrite (Hok Hr).
    + exists []. rewrite app_nil_r. simpl. repeat split; auto. discriminate.
Qed.

(** X6: when [learn_merge] returns normally, the pairs it appended to the
    merge history name every selected segment exactly once: the first
    component of the first pair and the second components of all pairs
    are, together, the selection. *)
Theorem learn_merge_history_covers (segments : list Z) (s : State) :
  snd (learn_merge segments s) = Ok tt ->
  exists s0 hs,
    history (fst (learn_merge segments s)) = history s ++ hs
    /\ (hs = [] \/ hd_error (map fst hs) = Some s0)
    /\ NoDup (s0 :: map snd hs)
    /\ Permutation (s0 :: map snd hs) (selection (rag s) segments).
Proof.
  pose proof (merge_order_permutation (rag s) segments) as Hperm.
  pose proof (selection_nodup (rag s) segments) as Hnd.
  unfold learn_merge.
  destruct (merge_order (rag s) segments) as [|s0 rest]; [discriminate|].
  intros Hr. destruct (merge_loop_history rest s0 s) as (hs & Hh & _ & Hfst & Hok).
  exists s0, hs. rewrite (Hok Hr).
  split; [assumption|]. split; [assumption|]. split; [|assumption].
  eapply Permutation_NoDup; [symmetry; eassumption | assumption].
Qed.

Lemma handler_merge (m : message) (segments : list Z) (s : State) :
  msg_type m = "merge"%string -> p_segments (msg_data m) = Some segments ->
  handler m s = Some (learn_merge segments s).
Proof. intros Ht Hs. unfold handler. rewrite Ht, Hs. reflexivity. Qed.

Lemma handler_separate (m : message) (fragments : list Z) (s : State) :
  msg_type m = "separate"%string -> p_segments (msg_data m) = Some fragments ->
  handler m s = Some (learn_separation fragments s).
Proof. intros Ht Hs. unfold handler. rewrite Ht, Hs. reflexivity. Qed.

Lemma listen_corrections (body : list message) :
  Forall is_correction body ->
  forall (tail : list message) (s : State),
    (exists s1, listen (body ++ tail) s = listen tail s1)
    \/ (exists e processed m,
          snd (fst (listen (body ++ tail) s)) = Crashed e
          /\ body ++ tail = processed ++ m :: snd (listen (body ++ tail) s)
          /\ msg_type m = "merge"%string).
Proof.
  induction 1 as [|m body Hm _ IH]; intros tail s.
  - left. exists s. reflexivity.
  - rewrite <- app_comm_cons, listen_cons.
    assert (Hcases :
      exists r, handler m s = Some r
        /\ (forall e, snd r = Raise e -> msg_type m = "merge"%string)).
    { destruct Hm as [[Ht [segments Hs]]|[Ht [a [b Hs]]]].
      - rewrite (handler_merge m segments s Ht Hs).
        eexists; split; [reflexivity | auto].
      - rewrite (handler_separate m [a; b] s Ht Hs).
        eexists; split; [reflexivity|]. intros e He.
        destruct (learn_separation_effect [a; b] s) as (_ & _ & _ & _ & Hres).
        rewrite He in Hres. destruct Hres as (_ & Hlen & _). now elim Hlen. }
    destruct Hcases as [[s1 r] [-> Hraise]].
    destruct r as [[]|e]; cbn [after_handler].
    + destruct (IH tail s1) as [[s2 Hs2]|(e & processed & m' & Hst & Hin & Ht)].
      * left. exists s2. exact Hs2.
      * right. exists e, (m :: processed), m'.
        split; [assumption|]. split; [|assumption].
        simpl. now rewrite <- Hin.
    + right. exists e, [], m. simpl. repeat split. now apply (Hraise e).
Qed.

End RunFacts.

(** * More of the simulator *)

Section DriverFacts.
Context {Rag Features Classifier Policy : Type}.
Context `{C : Collab Rag Features Classifier Policy}.
Variable ctable_col : Z -> list Z.
Variable base_graph : Z -> option (list Z).

Local Abbreviation State := (Solver Rag Features Policy).

Lemma send_separations_shape (components fragments : list Z) :
  forall wire,
    Forall is_correction wire ->
    Forall is_correction
      (fst (send_separations base_graph components fragments wire)).
Proof.
  induction fragments as [|f rest IH]; simpl; intros wire Hw; [assumption|].
  destruct (base_graph f) as [neighbors|]; [|assumption].
  apply IH. apply Forall_app. split; [assumption|].
  apply Forall_forall. intros m Hm. apply in_map_iff in Hm as [n [<- _]].
  right. split; [reflexivity|]. exists f, n. reflexivity.
Qed.

Lemma send_separations_raise (components fragments : list Z) :
  forall wire e,
    snd (send_separations base_graph components fragments wire) = Raise e ->
    e = KeyError /\ exists f, In f fragments /\ base_graph f = None.
Proof.
  induction fragments as [|f rest IH]; simpl; intros wire e; [discriminate|].
  destruct (base_graph f) as [neighbors|] eqn:Hf.
  - intros Hr. destruct (IH _ _ Hr) as [-> [f' [? ?]]]. eauto.
  - intros Hr. injection Hr as <-. eauto.
Qed.

Lemma operations_shape (todo : list (Z * Z)) :
  forall wire,
    Forall is_correction wire ->
    Forall is_correction (fst (operations ctable_col base_graph todo wire))
    /\ forall e,
         snd (operations ctable_col base_graph todo wire) = Raise e ->
         e = KeyError
         /\ exists label f, In label (map snd todo)
              /\ In f (ctable_col label) /\ base_graph f = None.
Proof.
  induction todo as [|[i label] rest IH]; simpl; intros wire Hw.
  - split; [assumption | discriminate].
  - assert (Hw' : Forall is_correction (wire ++ [merge_message (ctable_col label)])).
    { apply Forall_app. split; [assumption|]. constructor; [|constructor].
      left. split; [reflexivity|]. eexists; reflexivity. }
    pose proof (send_separations_shape (ctable_col label) (ctable_col label)
                  _ Hw') as Hs.
    pose proof (send_separations_raise (ctable_col label) (ctable_col label)
                  (wire ++ [merge_message (ctable_col label)])) as Hr.
    destruct (send_separations base_graph (ctable_col label) (ctable_col label)
                (wire ++ [merge_message (ctable_col label)])) as [wire' [[]|e']];
      simpl in *.
    + destruct (IH wire' Hs) as [IH1 IH2]. split; [assumption|].
      intros e He. destruct (IH2 e He) as [-> (l & f & ? & ? & ?)].
      split; [reflexivity|]. exists l, f. auto.
    + split; [assumption|]. intros e He. injection He as <-.
      destruct (Hr e' eq_refl) as [-> [f [? ?]]].
      split; [reflexivity|]. exists label, f. auto.
Qed.

(** what [proofread] puts on the wire: corrections, then the request, then
    [stop] if asked for *)
Lemma proofread_wire (true_labels : list Z) (num_operations : Z)
    (stop_when_finished : bool) (response : message) :
  exists body tail,
    fst (proofread ctable_col base_graph true_labels num_operations
           stop_when_finished response) = body ++ tail
    /\ Forall is_correction body
    /\ match snd (proofread ctable_col base_graph true_labels num_operations
                    stop_when_finished response) with
       | Ok _ =>
           tail = request_message
                  :: (if stop_when_finished then [stop_message] else [])
       | Raise e =>
           e = KeyError /\ (tail = [] \/ tail = [request_message])
       end.
Proof.
  unfold proofread.
  destruct (operations_shape (combine (py_range num_operations) true_labels)
              [] (Forall_nil _)) as [Hshape Hraise].
  destruct (operations ctable_col base_graph
              (combine (py_range num_operations) true_labels) [])
    as [wire [[]|e]]; simpl in *.
  - exists wire.
    destruct (p_fragments (msg_data response)) as [src|];
      [destruct (p_segments (msg_data response)) as [dst|]|]; simpl.
    + exists (request_message
              :: (if stop_when_finished then [stop_message] else [])).
      split; [|auto]. destruct stop_when_finished;
        [now rewrite <- app_assoc | reflexivity].
    + exists [request_message]. auto.
    + exists [request_message]. auto.
  - exists wire, []. rewrite app_nil_r. split; [reflexivity|].
    split; [assumption|]. destruct (Hraise e eq_refl) as [-> _]. auto.
Qed.

(** X7: [proofread] works through the first [num_operations] labels and
    no more: it sends one merge command for each of them, in order, and
    none at all when [num_operations] is zero or negative. *)
Theorem proofread_first_operations (true_labels : list Z) (num_operations : Z)
    (stop_when_finished : bool) (src dst : list Z) :
  (forall label f,
      In label (firstn (Z.to_nat num_operations) true_labels) ->
      In f (ctable_col label) -> base_graph f <> None) ->
  exists wire,
    proofread ctable_col base_graph true_labels num_operations
      stop_when_finished (lut_message src dst) = (wire, Ok (src, dst))
    /\ filter is_merge wire
       = map (fun label => merge_message (ctable_col label))
           (firstn (Z.to_nat num_operations) true_labels)
    /\ (num_operations <= 0 -> filter is_merge wire = []).
Proof.
  intros Hg.
  assert (Hzip : map snd (combine (py_range num_operations) true_labels)
                 = firstn (Z.to_nat num_operations) true_labels).
  { rewrite zip_shortest. unfold py_range. now rewrite length_map, length_seq. }
  destruct (operations_merges ctable_col base_graph
              (combine (py_range num_operations) true_labels))
    with (wire := @nil message) as [Hr Hf].
  { rewrite Hzip. exact Hg. }
  rewrite Hzip in Hf. simpl in Hf.
  unfold proofread.
  destruct (operations ctable_col base_graph
              (combine (py_range num_operations) true_labels) [])
    as [wire r].
  simpl in Hr, Hf. subst r. cbn [lut_message msg_data p_fragments p_segments].
  eexists; split; [reflexivity|].
  assert (Hw : filter is_merge
                 (if stop_when_finished
                  then (wire ++ [request_message]) ++ [stop_message]
                  else wire ++ [request_message])
               = map (fun label => merge_message (ctable_col label))
                   (firstn (Z.to_nat num_operations) true_labels)).
  { destruct stop_when_finished; rewrite !filter_app; simpl;
      rewrite ?app_nil_r; exact Hf. }
  split; [exact Hw|].
  intros Hn. rewrite Hw. replace (Z.to_nat num_operations) with 0%nat by lia.
  reflexivity.
Qed.

(** X8: [proofread] raises nothing but [KeyError], and only for a fragment
    of a processed label that is not a node of [base_graph] or for a
    response without its fields; whenever it raises it has not sent [stop],
    so the session is left running. *)
Theorem proofread_raises (true_labels : list Z) (num_operations : Z)
    (stop_when_finished : bool) (response : message) (e : exn) :
  snd (proofread ctable_col base_graph true_labels num_operations
         stop_when_finished response) = Raise e ->
  e = KeyError
  /\ ~ In stop_message
        (fst (proofread ctable_col base_graph true_labels num_operations
                stop_when_finished response))
  /\ ((exists label f,
          In label (firstn (Z.to_nat num_operations) true_labels)
          /\ In f (ctable_col label) /\ base_graph f = None)
      \/ p_fragments (msg_data response) = None
      \/ p_segments (msg_data response) = None).
Proof.
  intros Hr.
  destruct (proofread_wire true_labels num_operations stop_when_finished response)
    as (body & tail & Hw & Hbody & Htail).
  rewrite Hr in Htail. destruct Htail as [-> Htail].
  split; [reflexivity|]. split.
  - rewrite Hw, in_app_iff. intros [Hin|Hin].
    + rewrite Forall_forall in Hbody.
      destruct (Hbody _ Hin) as [[Ht _]|[Ht _]]; discriminate Ht.
    + destruct Htail as [-> | ->]; simpl in Hin;
        [contradiction | destruct Hin as [Hin|[]]; discriminate Hin].
  - revert Hr. unfold proofread.
    destruct (operations_shape (combine (py_range num_operations) true_labels)
                [] (Forall_nil _)) as [_ Hraise].
    destruct (operations ctable_col base_graph
                (combine (py_range num_operations) true_labels) [])
      as [wire [[]|e']]; simpl in *.
    + destruct (p_fragments (msg_data response)); [|auto].
      destruct (p_segments (msg_data response)); [discriminate | auto].
    + intros _. left. destruct (Hraise e' eq_refl) as [_ (l & f & Hl & Hf & Hn)].
      exists l, f. split; [|auto].
      rewrite zip_shortest in Hl. unfold py_range in Hl.
      now rewrite length_map, length_seq in Hl.
Qed.

(** X9: the messages of [proofread] fit the loop of the session: fed to
    [listen] in any state, they are all recognised and well formed, so the
    run can be ended early only by an exception of [learn_merge] at a merge
    command; otherwise every message is processed, and the loop has
    returned at the end exactly when [stop] was asked for and sent. *)
Theorem proofread_drives_session (true_labels : list Z) (num_operations : Z)
    (stop_when_finished : bool) (response : message) (s : State) :
  let wire := fst (proofread ctable_col base_graph true_labels num_operations
                     stop_when_finished response) in
  let ok := match snd (proofread ctable_col base_graph true_labels
                         num_operations stop_when_finished response) with
            | Ok _ => true
            | Raise _ => false
            end in
  match snd (fst (listen wire s)) with
  | Crashed e =>
      exists processed m,
        wire = processed ++ m :: snd (listen wire s)
        /\ msg_type m = "merge"%string
  | Stopped =>
      snd (listen wire s) = [] /\ stop_when_finished = true /\ ok = true
  | Listening =>
      snd (listen wire s) = [] /\ (stop_when_finished = false \/ ok = false)
  end.
Proof.
  intros wire ok. subst wire ok.
  destruct (proofread_wire true_labels num_operations stop_when_finished response)
    as (body & tail & -> & Hbody & Htail).
  destruct (listen_corrections body Hbody tail s)
    as [[s1 Hs1]|(e & processed & m & Hst & Hin & Ht)].
  - rewrite Hs1.
    destruct (snd (proofread ctable_col base_graph true_labels num_operations
                     stop_when_finished response)) as [lut|e].
    + subst tail. destruct stop_when_finished; simpl; auto.
    + destruct Htail as [_ [Ht|Ht]]; subst tail; simpl; auto.
  - rewrite Hst. exists processed, m. auto.
Qed.

End DriverFacts.

(** * The option manager *)

Module OptionsFacts.
Import Options.

Lemma dict_get_set_eq {V : Type} (k : string) (v : V) (d : dict V) :
  dict_get k (dict_set k v d) = Some v.
Proof.
  induction d as [|[k' v'] d IH]; simpl.
  - now rewrite String.eqb_refl.
  - destruct (String.eqb k k') eqn:Hk; simpl.
    + now rewrite String.eqb_refl.
    + now rewrite Hk.
Qed.

Lemma dict_get_set_neq {V : Type} (k k' : string) (v : V) (d : dict V) :
  k <> k' -> dict_get k (dict_set k' v d) = dict_get k d.
Proof.
  intros Hne. induction d as [|[k0 v0] d IH]; simpl.
  - destruct (String.eqb_spec k k'); [contradiction | reflexivity].
  - destruct (String.eqb_spec k' k0) as [->|Hk0]; simpl.
    + destruct (String.eqb_spec k k0); [contradiction | reflexivity].
    + destruct (String.eqb_spec k k0); [reflexivity | exact IH].
Qed.

Lemma replace_dash_idem (name : string) :
  replace_dash (replace_dash name) = replace_dash name.
Proof.
  induction name as [|c rest IH]; simpl; [reflexivity|].
  rewrite IH. f_equal.
  destruct (Ascii.eqb c "-") eqn:Hc; [reflexivity | now rewrite Hc].
Qed.

Section ManagerFacts.
Variable Parser : Type.
Variable add_argument : Parser -> argument -> option Parser.

Local Abbreviation Manager := (OptionManager Parser).

(** what one turn of the first loop does *)
Lemma load_option_spec (json_data args_dict : option (dict pyval))
    (m : Manager) (name : string) (opt : OptionConfig) :
  match load_option Parser json_data args_dict m (name, opt) with
  | (m', Done _) =>
      truthy (given json_data args_dict name) = false
      /\ (required opt = true -> given json_data args_dict name <> PNone)
      /\ options m' = set_default (options m) (name, opt)
      /\ options_config m' = options_config m
      /\ arg_parser m' = arg_parser m
  | (m', Fail e) =>
      m' = m
      /\ ((e = NeedsToBeSpecified name /\ required opt = true
           /\ given json_data args_dict name = PNone)
          \/ (e = NameError /\ truthy (given json_data args_dict name) = true))
  end.
Proof.
  unfold load_option, given.
  destruct (lookup_value json_data args_dict name) as [v overridden]. simpl.
  destruct (required opt), (warning opt), v as [|b|z|str|l];
    simpl; try (repeat split; solve [auto | discriminate | congruence]);
    try (destruct b; simpl; repeat split; solve [auto | discriminate | congruence]);
    try (destruct (z =? 0); simpl; repeat split; solve [auto | discriminate | congruence]);
    try (destruct (String.eqb str ""); simpl; repeat split; solve [auto | discriminate | congruence]);
    try (destruct l; simpl; repeat split; solve [auto | discriminate | congruence]).
Qed.

Lemma load_options_spec (json_data args_dict : option (dict pyval))
    (entries : dict OptionConfig) :
  forall m : Manager,
    match load_options Parser json_data args_dict entries m with
    | (m', Done _) =>
        (forall name opt, In (name, opt) entries ->
           truthy (given json_data args_dict name) = false
           /\ (required opt = true ->
               given json_data args_dict name <> PNone))
        /\ options m' = with_defaults entries (options m)
        /\ options_config m' = options_config m
        /\ arg_parser m' = arg_parser m
    | (m', Fail e) =>
        options_config m' = options_config m
        /\ exists name opt,
             In (name, opt) entries
             /\ ((e = NeedsToBeSpecified name /\ required opt = true
                  /\ given json_data args_dict name = PNone)
                 \/ (e = NameError
                     /\ truthy (given json_data args_dict name) = true))
    end.
Proof.
  induction entries as [|[name opt] rest IH]; intros m.
  - simpl. split; [intros ? ? []|]. repeat split.
  - cbn [load_options].
    pose proof (load_option_spec json_data args_dict m name opt) as Hone.
    destruct (load_option Parser json_data args_dict m (name, opt))
      as [m1 [[]|e]].
    + destruct Hone as (Ht & Hr & Ho & Hc & Hp).
      specialize (IH m1).
      destruct (load_options Parser json_data args_dict rest m1) as [m2 [[]|e]].
      * destruct IH as (Hall & Ho2 & Hc2 & Hp2).
        split.
        { intros n o [Heq|Hin]; [injection Heq as <- <-; auto | eauto]. }
        split; [rewrite Ho2, Ho; reflexivity|].
        split; congruence.
      * destruct IH as (Hc2 & n & o & Hin & Hcase).
        split; [congruence|]. exists n, o. simpl. auto.
    + destruct Hone as (-> & Hcase). split; [reflexivity|].
      exists name, opt. simpl. auto.
Qed.

Lemma verify_options_none (entries : dict OptionConfig) :
  no_verify entries ->
  forall m : Manager, verify_options Parser entries m = (m, Done tt).
Proof.
  induction entries as [|[name opt] rest IH]; intros Hnv m; simpl;
    [reflexivity|].
  rewrite (Hnv name opt) by (simpl; auto).
  apply IH. intros n o Hin. apply (Hnv n o). simpl; auto.
Qed.

Lemma read_config_frame (file_name : option string)
    (fs : string -> option (dict pyval)) (m : Manager) :
  options_config (fst (read_config Parser file_name fs m)) = options_config m
  /\ options (fst (read_config Parser file_name fs m)) = options m
  /\ arg_parser (fst (read_config Parser file_name fs m)) = arg_parser m.
Proof.
  unfold read_config. destruct file_name as [f|]; [destruct (fs f)|];
    repeat split.
Qed.

(** X10: a value that is truthy, from the configuration file or from the
    command line, makes [load_config] raise: it reaches the undefined name
    [overriden] and raises [NameError], unless an opt before it already
    made it raise ([NameError] again, or a required opt without a
    value).  [load_config] never returns with such a value. *)
Theorem load_config_truthy_raises (file_name : option string)
    (args : option (dict pyval)) (fs : string -> option (dict pyval))
    (m : Manager) (name : string) (opt : OptionConfig) :
  In (name, opt) (options_config m) ->
  truthy (given (snd (read_config Parser file_name fs m)) args name) = true ->
  snd (load_config Parser file_name args fs m) = Fail NameError
  \/ exists missing,
       snd (load_config Parser file_name args fs m)
       = Fail (NeedsToBeSpecified missing).
Proof.
  intros Hin Htruthy. unfold load_config.
  destruct (read_config_frame file_name fs m) as (Hc & _ & _).
  destruct (read_config Parser file_name fs m) as [m1 json_data].
  simpl in *. rewrite Hc.
  pose proof (load_options_spec json_data args (options_config m) m1) as Hspec.
  destruct (load_options Parser json_data args (options_config m) m1)
    as [m2 [[]|e]]; simpl.
  - destruct Hspec as (Hall & _).
    destruct (Hall name opt Hin) as [Hf _]. congruence.
  - destruct Hspec as (_ & n & o & _ & [(-> & _)|(-> & _)]); eauto.
Qed.

Lemma with_defaults_other (entries : dict OptionConfig) (key : string) :
  ~ In key (map (fun e => replace_dash (fst e)) entries) ->
  forall ns, dict_get key (with_defaults entries ns) = dict_get key ns.
Proof.
  unfold with_defaults.
  induction entries as [|[n o] rest IH]; simpl; intros Hk ns; [reflexivity|].
  rewrite IH by tauto. unfold set_default; simpl.
  apply dict_get_set_neq. intros ->. tauto.
Qed.

Lemma with_defaults_get (entries : dict OptionConfig) :
  NoDup (map (fun e => replace_dash (fst e)) entries) ->
  forall ns name opt,
    In (name, opt) entries ->
    dict_get (replace_dash name) (with_defaults entries ns)
    = Some (default_val opt).
Proof.
  induction entries as [|[n o] rest IH]; simpl; intros Hnd ns name opt;
    [intros []|].
  inversion Hnd as [|? ? Hn Hrest]; subst.
  intros [Heq|Hin].
  - injection Heq as -> ->.
    change (with_defaults ((name, opt) :: rest) ns)
      with (with_defaults rest (set_default ns (name, opt))).
    rewrite with_defaults_other by assumption.
    apply dict_get_set_eq.
  - change (with_defaults ((n, o) :: rest) ns)
      with (with_defaults rest (set_default ns (n, o))).
    now apply IH.
Qed.

Lemma load_config_done (file_name : option string)
    (args : option (dict pyval)) (fs : string -> option (dict pyval))
    (m : Manager) (ns : namespace) :
  no_verify (options_config m) ->
  snd (load_config Parser file_name args fs m) = Done ns ->
  ns = with_defaults (options_config m) (options m)
  /\ options (fst (load_config Parser file_name args fs m)) = ns
  /\ (NoDup (map (fun e => replace_dash (fst e)) (options_config m)) ->
      forall name opt,
        In (name, opt) (options_config m) ->
        get_value ns name = Done (default_val opt)).
Proof.
  intros Hnv. unfold load_config.
  destruct (read_config_frame file_name fs m) as (Hc & Ho & _).
  destruct (read_config Parser file_name fs m) as [m1 json_data].
  simpl in *. rewrite Hc.
  pose proof (load_options_spec json_data args (options_config m) m1) as Hspec.
  destruct (load_options Parser json_data args (options_config m) m1)
    as [m2 [[]|e]]; simpl; [|discriminate].
  destruct Hspec as (_ & Ho2 & Hc2 & _).
  rewrite verify_options_none by (rewrite Hc2, Hc; exact Hnv).
  simpl. intros Hns. injection Hns as <-.
  rewrite Ho2, Ho. split; [reflexivity|]. split; [reflexivity|].
  intros Hnd name opt Hin. unfold get_value.
  now rewrite (with_defaults_get _ Hnd _ name opt Hin).
Qed.

(** X11: when [load_config] returns, no value of the file or of the
    command line has been stored: with no verify functions, the options
    are the ones before the call with every registered opt set to its
    default (and read back as such by [get_value], when no two names
    become the same attribute). *)
Theorem load_config_stores_defaults (file_name : option string)
    (args : option (dict pyval)) (fs : string -> option (dict pyval))
    (m : Manager) (ns : namespace) :
  no_verify (options_config m) ->
  snd (load_config Parser file_name args fs m) = Done ns ->
  ns = with_defaults (options_config m) (options m)
  /\ options (fst (load_config Parser file_name args fs m)) = ns
  /\ (NoDup (map (fun e => replace_dash (fst e)) (options_config m)) ->
      forall name opt,
        In (name, opt) (options_config m) ->
        get_value ns name = Done (default_val opt)).
Proof.
  intros Hnv Hload. now apply load_config_done.
Qed.








Lemma create_option_effect (m : Manager) (unique_name description : string)
    (default : pyval) (req : bool) (t : dtype) (vf : option verify)
    (num_args : pyval) (shortcut : option string) (warn hidden : bool) :
  contains (options m) unique_name = false ->
  let r := create_option Parser add_argument m unique_name description
             default req t vf num_args shortcut warn hidden in
  options_config (fst r)
  = dict_set unique_name (mkOptionConfig description default req t warn vf)
      (options_config m)
  /\ options (fst r) = options m
  /\ (snd r = Done tt \/ snd r = Fail ArgumentError
      \/ (snd r = Fail (BoolWithoutDefault unique_name)
          /\ t = Tbool /\ default = PNone /\ arg_parser (fst r) = arg_parser m)).
Proof.
  intros Hc r. subst r. unfold create_option. rewrite Hc.
  destruct (is_bool t) eqn:Ht.
  - destruct (is_None default) eqn:Hd.
    + simpl. repeat split. right; right.
      destruct t; try discriminate. destruct default; try discriminate. auto.
    + match goal with |- context [add_argument ?p ?a] =>
        destruct (add_argument p a) end; simpl; auto.
  - match goal with |- context [add_argument ?p ?a] =>
      destruct (add_argument p a) end; simpl; auto.
Qed.

(** X13: [create_option] looks for a duplicate among the loaded options,
    not among the registered ones, and registers the option before it
    checks anything else: whenever the name is not an attribute of the
    options, the configuration of that name is the new one afterwards (an
    earlier one is replaced), also when the call raises for a bool option
    without default or inside [add_argument]; no duplicate is reported. *)
Theorem create_option_registers_first (m : Manager)
    (unique_name description : string)
    (default : pyval) (req : bool) (t : dtype) (vf : option verify)
    (num_args : pyval) (shortcut : option string) (warn hidden : bool) :
  contains (options m) unique_name = false ->
  let r := create_option Parser add_argument m unique_name description
             default req t vf num_args shortcut warn hidden in
  dict_get unique_name (options_config (fst r))
  = Some (mkOptionConfig description default req t warn vf)
  /\ (forall other, other <> unique_name ->
        dict_get other (options_config (fst r))
        = dict_get other (options_config m))
  /\ (forall n, snd r <> Fail (DuplicateName n))
  /\ (t = Tbool -> default = PNone ->
      snd r = Fail (BoolWithoutDefault unique_name)
      /\ arg_parser (fst r) = arg_parser m).
Proof.
  intros Hc r.
  destruct (create_option_effect m unique_name description default req t vf
              num_args shortcut warn hidden Hc) as (Hcfg & _ & Hres).
  fold r in Hcfg, Hres.
  split; [rewrite Hcfg; apply dict_get_set_eq|].
  split; [intros other Hne; rewrite Hcfg; now apply dict_get_set_neq|].
  split.
  - intros n Hn. destruct Hres as [H|[H|[H _]]]; rewrite H in Hn; discriminate.
  - intros -> ->. subst r. unfold create_option. rewrite Hc. simpl. auto.
Qed.

Lemma dict_set_keeps {V : Type} (k k' : string) (v : V) (d : dict V) :
  dict_get k d <> None -> dict_get k (dict_set k' v d) <> None.
Proof.
  intros Hk. destruct (String.eqb_spec k k') as [->|Hne].
  - rewrite dict_get_set_eq. discriminate.
  - now rewrite dict_get_set_neq.
Qed.

Lemma with_defaults_keeps (entries : dict OptionConfig) (key : string) :
  forall ns, dict_get key ns <> None ->
             dict_get key (with_defaults entries ns) <> None.
Proof.
  unfold with_defaults.
  induction entries as [|e rest IH]; simpl; intros ns Hk; [assumption|].
  apply IH. unfold set_default. now apply dict_set_keeps.
Qed.

Lemma with_defaults_has (entries : dict OptionConfig) :
  forall ns name opt,
    In (name, opt) entries ->
    dict_get (replace_dash name) (with_defaults entries ns) <> None.
Proof.
  induction entries as [|e rest IH]; intros ns name opt; [intros []|].
  change (with_defaults (e :: rest) ns)
    with (with_defaults rest (set_default ns e)).
  intros [->|Hin]; [|eapply IH; eauto].
  apply with_defaults_keeps. unfold set_default; simpl.
  rewrite dict_get_set_eq. discriminate.
Qed.

Lemma with_defaults_keys (entries : dict OptionConfig) (key : string) :
  forall ns,
    dict_get key (with_defaults entries ns) <> None ->
    dict_get key ns <> None
    \/ exists name opt, In (name, opt) entries /\ key = replace_dash name.
Proof.
  induction entries as [|[n o] rest IH]; intros ns; [auto|].
  change (with_defaults ((n, o) :: rest) ns)
    with (with_defaults rest (set_default ns (n, o))).
  intros Hk. destruct (IH _ Hk) as [Hns|(name & opt & Hin & ->)].
  - unfold set_default in Hns; simpl in Hns.
    destruct (String.eqb_spec key (replace_dash n)) as [->|Hne].
    + right. exists n, o. simpl; auto.
    + rewrite dict_get_set_neq in Hns by assumption. auto.
  - right. exists name, opt. simpl; auto.
Qed.

(** X14: [load_config] stores every option under its name with the dashes
    replaced, [get_value] replaces them too, and [in] does not: after
    [load_config] on fresh options, [get_value] finds every registered
    option under both spellings, while [in] holds only for names without
    a dash, so that [create_option] reports no duplicate for a registered
    name that has one. *)
Theorem load_config_attribute_names (file_name : option string)
    (args : option (dict pyval)) (fs : string -> option (dict pyval))
    (m : Manager) (ns : namespace) :
  no_verify (options_config m) -> options m = [] ->
  snd (load_config Parser file_name args fs m) = Done ns ->
  (forall name opt,
      In (name, opt) (options_config m) ->
      exists v, get_value ns name = Done v
                /\ get_value ns (replace_dash name) = Done v)
  /\ (forall key, contains ns key = true -> replace_dash key = key)
  /\ (forall name opt description default req t vf num_args shortcut warn hidden,
        In (name, opt) (options_config m) -> replace_dash name <> name ->
        contains ns name = false
        /\ forall n,
             snd (create_option Parser add_argument
                    (fst (load_config Parser file_name args fs m))
                    name description default req t vf num_args shortcut
                    warn hidden)
             <> Fail (DuplicateName n)).
Proof.
  intros Hnv Hempty Hload.
  destruct (load_config_done file_name args fs m ns Hnv Hload)
    as (Hns & Hopt & _).
  rewrite Hempty in Hns.
  assert (Hkeys : forall key, contains ns key = true -> replace_dash key = key).
  { intros key Hk. unfold contains, dict_mem in Hk.
    destruct (with_defaults_keys (options_config m) key [])
      as [Hnil|(name & opt & _ & ->)].
    - rewrite <- Hns. destruct (dict_get key ns); [discriminate | discriminate Hk].
    - now elim Hnil.
    - apply replace_dash_idem. }
  split; [|split; [assumption|]].
  - intros name opt Hin.
    pose proof (with_defaults_has (options_config m) [] name opt Hin) as Hhas.
    rewrite <- Hns in Hhas. unfold get_value. rewrite replace_dash_idem.
    destruct (dict_get (replace_dash name) ns) as [v|]; [eauto | now elim Hhas].
  - intros name opt description default req t vf num_args shortcut warn hidden
      Hin Hdash.
    assert (Hc : contains ns name = false).
    { destruct (contains ns name) eqn:Hc; [|reflexivity].
      elim Hdash. now apply Hkeys. }
    split; [assumption|]. intros n Hn.
    rewrite <- Hopt in Hc.
    destruct (create_option_effect
                (fst (load_config Parser file_name args fs m))
                name description default req t vf num_args shortcut warn hidden
                Hc) as (_ & _ & [H|[H|[H _]]]);
      rewrite H in Hn; discriminate.
Qed.

Lemma export_entries_spec (ns : namespace) (entries : dict OptionConfig) :
  forall d d',
    export_entries ns entries d = Done d' ->
    (forall key, ~ In key (map fst entries) -> dict_get key d' = dict_get key d)
    /\ (forall name, In name (map fst entries) ->
          exists v, get_value ns name = Done v
                    /\ dict_get name d'
                       = if is_None v then dict_get name d else Some v).
Proof.
  induction entries as [|[n o] rest IH]; simpl; intros d d' Hex.
  - injection Hex as <-. split; [reflexivity | intros ? []].
  - destruct (get_value ns n) as [v0|e] eqn:Hv0; [|discriminate].
    set (d1 := if is_None v0 then d else dict_set n v0 d) in *.
    assert (Hex1 : export_entries ns rest d1 = Done d')
      by (subst d1; destruct (is_None v0); exact Hex).
    destruct (IH d1 d' Hex1) as [Hother Hnamed].
    assert (Hd1 : forall key, key <> n -> dict_get key d1 = dict_get key d).
    { intros key Hne. subst d1. destruct (is_None v0); [reflexivity|].
      now apply dict_get_set_neq. }
    split.
    + intros key Hk. rewrite Hother by tauto. apply Hd1. intros ->. tauto.
    + intros name Hname.
      destruct (in_dec string_dec name (map fst rest)) as [Hin|Hnin].
      * destruct (Hnamed name Hin) as (v & Hv & Hget).
        exists v. split; [assumption|]. rewrite Hget.
        destruct (is_None v) eqn:Hnone; [|reflexivity].
        destruct (string_dec name n) as [->|Hne]; [|now apply Hd1].
        rewrite Hv in Hv0. injection Hv0 as <-. subst d1. now rewrite Hnone.
      * destruct Hname as [<-|Hin]; [|contradiction].
        exists v0. split; [assumption|]. rewrite (Hother n Hnin).
        subst d1. destruct (is_None v0); [reflexivity|].
        apply dict_get_set_eq.
Qed.

Lemma export_entries_fail (ns : namespace) (entries : dict OptionConfig) :
  forall d e,
    export_entries ns entries d = Fail e ->
    exists name, In name (map fst entries)
                 /\ e = DoesNotExist (replace_dash name)
                 /\ dict_get (replace_dash name) ns = None.
Proof.
  induction entries as [|[n o] rest IH]; simpl; intros d e Hex; [discriminate|].
  unfold get_value in Hex.
  destruct (dict_get (replace_dash n) ns) as [v0|] eqn:Hv0.
  - destruct (is_None v0);
      destruct (IH _ _ Hex) as (name & ? & ? & ?); exists name; auto.
  - injection Hex as <-. exists n. auto.
Qed.

(** X15: [export_json] writes, under the registered name, the value of
    every registered option that is not [None], leaves the entry of a
    given dictionary alone when the option is [None], and keeps every
    entry under another key; it raises exactly when a registered option
    is not an attribute of the options (as before [load_config]), and
    then for the first such name. *)
Theorem export_json_contents (m : Manager) (json_data : option (dict pyval)) :
  match export_json Parser m json_data with
  | Done written =>
      let given_data := match json_data with Some d => d | None => [] end in
      (forall key, ~ In key (map fst (options_config m)) ->
                   dict_get key written = dict_get key given_data)
      /\ (forall name, In name (map fst (options_config m)) ->
            exists v, get_value (options m) name = Done v
                      /\ dict_get name written
                         = if is_None v then dict_get name given_data
                           else Some v)
  | Fail e =>
      exists name, In name (map fst (options_config m))
                   /\ e = DoesNotExist (replace_dash name)
                   /\ dict_get (replace_dash name) (options m) = None
  end.
Proof.
  unfold export_json.
  destruct (export_entries (options m) (options_config m)
              match json_data with Some d => d | None => [] end)
    as [written|e] eqn:Hex.
  - now apply export_entries_spec.
  - eapply export_entries_fail; eauto.
Qed.

End ManagerFacts.

End OptionsFacts.

(** * The additional statements on concrete inputs *)

Lemma listen_raw_crash_cause_stop_without_data :
  let inbox := [envelope (merge_message [1; 2]);
                mkReceived (Some "stop"%string) None;
                envelope request_message] in
  listen_raw (C := Toy.collab true) inbox (Toy.session true)
  = (fst (learn_merge (C := Toy.collab true) [1; 2] (Toy.session true)),
     Crashed KeyError, [envelope request_message]).
Proof. reflexivity. Qed.


Lemma learn_merge_history_covers_witness :
  exists s0 hs,
    history (fst (learn_merge (C := Toy.collab true) [1; 2; 3] (Toy.session true)))
    = history (Toy.session true) ++ hs
    /\ (hs = [] \/ hd_error (map fst hs) = Some s0)
    /\ NoDup (s0 :: map snd hs)
    /\ Permutation (s0 :: map snd hs)
         (selection (C := Toy.collab true) (rag (Toy.session true)) [1; 2; 3]).
Proof.
  apply (learn_merge_history_covers (C := Toy.collab true) [1; 2; 3]
           (Toy.session true)).
  reflexivity.
Defined.

Lemma proofread_first_operations_witness :
  let ctable_col := fun label => if label =? 1 then [1; 2] else [3; 4] in
  let base_graph := fun f =>
    if f =? 1 then Some [2] else if f =? 2 then Some [1; 3] else None in
  exists wire,
    proofread ctable_col base_graph [1; 2] 1 false (lut_message [0] [0])
    = (wire, Ok ([0], [0]))
    /\ filter is_merge wire
       = map (fun label => merge_message (ctable_col label))
           (firstn (Z.to_nat 1) [1; 2])
    /\ (1 <= 0 -> filter is_merge wire = []).
Proof.
  intros ctable_col base_graph.
  apply (proofread_first_operations ctable_col base_graph [1; 2] 1 false).
  intros label f Hl Hf. vm_compute in Hl. destruct Hl as [<-|[]].
  vm_compute in Hf. destruct Hf as [<-|[<-|[]]]; discriminate.
Defined.

Lemma proofread_raises_witness :
  let ctable_col := fun _ : Z => [1] in
  let base_graph := fun _ : Z => @None (list Z) in
  KeyError = KeyError
  /\ ~ In stop_message
        (fst (proofread ctable_col base_graph [1] 1 true (lut_message [0] [0])))
  /\ ((exists label f,
          In label (firstn (Z.to_nat 1) [1])
          /\ In f (ctable_col label) /\ base_graph f = None)
      \/ p_fragments (msg_data (lut_message [0] [0])) = None
      \/ p_segments (msg_data (lut_message [0] [0])) = None).
Proof.
  intros ctable_col base_graph.
  apply (proofread_raises ctable_col base_graph [1] 1 true (lut_message [0] [0])
           KeyError).
  reflexivity.
Defined.

Module OptionsWitnesses.
Import Options.

Lemma two_options_no_verify : no_verify (options_config two_options).
Proof.
  intros name opt [H|[H|[]]]; injection H as <- <-; reflexivity.
Qed.

Lemma load_config_truthy_raises_witness :
  snd (load_config Recorder (Some "c.json"%string) None results_file two_options)
  = Fail NameError
  \/ exists missing,
       snd (load_config Recorder (Some "c.json"%string) None results_file
              two_options)
       = Fail (NeedsToBeSpecified missing).
Proof.
  apply (OptionsFacts.load_config_truthy_raises Recorder
           (Some "c.json"%string) None results_file two_options
           "out-dir"%string
           (mkOptionConfig "where to write" (PStr "") false Tstr false None)).
  - left. reflexivity.
  - reflexivity.
Defined.

Lemma load_config_stores_defaults_witness :
  let ns := [("out_dir"%string, PStr ""); ("verbose"%string, PBool false)] in
  ns = with_defaults (options_config two_options) (options two_options)
  /\ options (fst (load_config Recorder None None (fun _ => None) two_options))
     = ns
  /\ (NoDup (map (fun e => replace_dash (fst e)) (options_config two_options)) ->
      forall name opt,
        In (name, opt) (options_config two_options) ->
        get_value ns name = Done (default_val opt)).
Proof.
  apply (OptionsFacts.load_config_stores_defaults Recorder None None
           (fun _ => None) two_options).
  - exact two_options_no_verify.
  - reflexivity.
Defined.


Lemma create_option_registers_first_witness :
  let r := create_option Recorder record_argument two_options
             "out-dir" "again" PNone true Tstr None PNone None false false in
  dict_get "out-dir"%string (options_config (fst r))
  = Some (mkOptionConfig "again" PNone true Tstr false None)
  /\ (forall other, other <> "out-dir"%string ->
        dict_get other (options_config (fst r))
        = dict_get other (options_config two_options))
  /\ (forall n, snd r <> Fail (DuplicateName n))
  /\ (Tstr = Tbool -> PNone = PNone ->
      snd r = Fail (BoolWithoutDefault "out-dir")
      /\ arg_parser (fst r) = arg_parser two_options).
Proof.
  apply (OptionsFacts.create_option_registers_first Recorder record_argument
           two_options "out-dir" "again" PNone true Tstr None PNone None
           false false).
  reflexivity.
Defined.

Lemma load_config_attribute_names_witness :
  let ns := [("out_dir"%string, PStr ""); ("verbose"%string, PBool false)] in
  (forall name opt,
      In (name, opt) (options_config two_options) ->
      exists v, get_value ns name = Done v
                /\ get_value ns (replace_dash name) = Done v)
  /\ (forall key, contains ns key = true -> replace_dash key = key)
  /\ (forall name opt description default req t vf num_args shortcut warn hidden,
        In (name, opt) (options_config two_options) ->
        replace_dash name <> name ->
        contains ns name = false
        /\ forall n,
             snd (create_option Recorder record_argument
                    (fst (load_config Recorder None None (fun _ => None)
                            two_options))
                    name description default req t vf num_args shortcut
                    warn hidden)
             <> Fail (DuplicateName n)).
Proof.
  apply (OptionsFacts.load_config_attribute_names Recorder record_argument
           None None (fun _ => None) two_options).
  - exact two_options_no_verify.
  - reflexivity.
  - reflexivity.
Defined.

End OptionsWitnesses.
